(** * Attitude estimation: Madgwick quaternion filter and extended Kalman filter

    A shallow embedding of [desktop_app/utils/quaternion.py] and
    [desktop_app/utils/kalman_filter.py] over the real numbers.

    Numbers.  A Python [float] / numpy [float64] is read as a real number,
    so every statement below is a statement in exact real arithmetic.
    Two places where IEEE arithmetic leaves the reals are kept explicit:
    - numpy's true division by a zero divisor stores [nan] or [inf]
      (with a [RuntimeWarning], not an exception); [np_div] returns [None]
      there, and a function that stores such a quotient returns [None];
    - [np.linalg.inv] raises [LinAlgError] on a singular matrix; the
      functions that call it return a [result] that carries the object as the
      exception leaves it;
    - the two [while] loops of [_normalize_angle] exit on every real number
      but not on every [float64]: they are embedded a second time over
      binary64 numbers ([Float64]), and the statements over the reals say
      what a call returns, not that it returns.

    Arrays.  A numpy vector is a function [nat -> R] and a numpy matrix a
    function [nat -> nat -> R]; the shapes are the ones the source fixes
    (6, 3 and 1) and are passed to the operations that sum over an index. *)

From Stdlib Require Import Reals Lra Lia List Bool Arith ZArith Psatz.
From Stdlib Require Floats.PrimFloat.
Import ListNotations.
Local Open Scope R_scope.

(* ================================================================== *)
(** * Part I: definitions                                              *)
(* ================================================================== *)

(** ** The [math] and [numpy] functions the source calls *)

(** [math.radians] and [math.degrees]. *)
Definition radians (x : R) : R := x * PI / 180.
Definition degrees (x : R) : R := x * 180 / PI.

(** [math.copysign(m, s)]; the reals have a single zero, taken as positive. *)
Definition copysign (m s : R) : R :=
  if Rle_dec 0 s then Rabs m else - Rabs m.

(** [math.atan2(y, x)]: the angle of the point [(x, y)], in [(-PI, PI]], and
    [0] at the origin (the sign of a [float] zero is not modelled: a zero [y]
    with a negative [x] gives [PI]). *)
Definition atan2 (y x : R) : R :=
  if Rlt_dec 0 x then atan (y / x)
  else if Rlt_dec x 0 then
         (if Rle_dec 0 y then atan (y / x) + PI else atan (y / x) - PI)
  else if Rlt_dec 0 y then PI / 2
  else if Rlt_dec y 0 then - (PI / 2)
  else 0.

(** numpy's true division of [float64] scalars: [None] stands for the
    non-finite value ([nan], [inf]) that a zero divisor produces. *)
Definition np_div (x y : R) : option R :=
  if Req_dec_T y 0 then None else Some (x / y).

(** [math.sqrt], which raises [ValueError] on a negative argument ([None]). *)
Definition math_sqrt (x : R) : option R :=
  if Rlt_dec x 0 then None else Some (sqrt x).

(** [np.std] of a Python list (population standard deviation, [ddof = 0]). *)
Definition list_sum (l : list R) : R := fold_right Rplus 0 l.
Definition np_mean (l : list R) : R := list_sum l / INR (length l).
Definition np_std (l : list R) : R :=
  sqrt (np_mean (map (fun x => Rabs (x - np_mean l) ^ 2) l)).

(** ** Vectors and matrices *)

Definition vector := nat -> R.
Definition matrix := nat -> nat -> R.

(** [sum_n n f] is [f 0 + ... + f (n-1)]. *)
Fixpoint sum_n (n : nat) (f : nat -> R) : R :=
  match n with
  | O => 0
  | S k => sum_n k f + f k
  end.

Definition dot (n : nat) (u v : vector) : R := sum_n n (fun i => u i * v i).

(** [np.eye] and [np.zeros]. *)
Definition eye : matrix := fun i j => if Nat.eqb i j then 1 else 0.
Definition zeros : matrix := fun _ _ => 0.
Definition vzeros : vector := fun _ => 0.

(** [A[i, j] = v] and [x[i] = v]. *)
Definition mset (A : matrix) (i j : nat) (v : R) : matrix :=
  fun i' j' => if Nat.eqb i' i && Nat.eqb j' j then v else A i' j'.
Definition vset (x : vector) (i : nat) (v : R) : vector :=
  fun i' => if Nat.eqb i' i then v else x i'.

(** [A.T], [A + B], [A - B], [A * c], and [A @ B] with inner dimension [k]. *)
Definition mT (A : matrix) : matrix := fun i j => A j i.
Definition madd (A B : matrix) : matrix := fun i j => A i j + B i j.
Definition msub (A B : matrix) : matrix := fun i j => A i j - B i j.
Definition mscale (A : matrix) (c : R) : matrix := fun i j => A i j * c.
Definition mmul (k : nat) (A B : matrix) : matrix :=
  fun i j => sum_n k (fun l => A i l * B l j).

(** [A @ x] for a vector [x] of length [k], and [x + y]. *)
Definition mv (k : nat) (A : matrix) (x : vector) : vector :=
  fun i => sum_n k (fun l => A i l * x l).
Definition vadd (x y : vector) : vector := fun i => x i + y i.

(** [np.array([a, b, c])] and [np.array([a])]. *)
Definition vec3 (a b c : R) : vector :=
  fun i => match i with 0%nat => a | 1%nat => b | 2%nat => c | _ => 0 end.
Definition vec1 (a : R) : vector :=
  fun i => match i with 0%nat => a | _ => 0 end.

(** [A[lo:hi, lo:hi] *= c] and [A[lo:hi, lo:hi] = B] (with [B] indexed from 0). *)
Definition in_block (lo hi i j : nat) : bool :=
  Nat.leb lo i && Nat.ltb i hi && Nat.leb lo j && Nat.ltb j hi.
Definition block_scale (A : matrix) (lo hi : nat) (c : R) : matrix :=
  fun i j => if in_block lo hi i j then A i j * c else A i j.
Definition block_assign (A : matrix) (lo hi : nat) (B : matrix) : matrix :=
  fun i j => if in_block lo hi i j then B (i - lo)%nat (j - lo)%nat else A i j.

(** The quadratic form [x^T A x], symmetry and positive semi-definiteness of
    an [n x n] matrix. *)
Definition quad (n : nat) (A : matrix) (x : vector) : R := dot n x (mv n A x).
Definition symmetric (n : nat) (A : matrix) : Prop :=
  forall i j, (i < n)%nat -> (j < n)%nat -> A i j = A j i.
Definition psd (n : nat) (A : matrix) : Prop :=
  forall x : vector, 0 <= quad n A x.

(** Outcome of a method that may raise [numpy.linalg.LinAlgError]: what a
    normal return leaves (the object, with the returned value where there is
    one), or the object as it is when the exception leaves the method. *)
Inductive result (A S : Type) : Type :=
| Done (a : A)
| LinAlgError (s : S).
Arguments Done {A S} a.
Arguments LinAlgError {A S} s.

Definition after {S : Type} (r : result S S) : S :=
  match r with Done a => a | LinAlgError a => a end.

(** [np.linalg.inv] on the two shapes the source inverts.  In exact
    arithmetic the LU solve behind it succeeds exactly when the determinant is
    not zero, and then yields the inverse, written here by cofactors. *)
Definition det3 (A : matrix) : R :=
  A 0%nat 0%nat * (A 1%nat 1%nat * A 2%nat 2%nat - A 1%nat 2%nat * A 2%nat 1%nat)
  - A 0%nat 1%nat * (A 1%nat 0%nat * A 2%nat 2%nat - A 1%nat 2%nat * A 2%nat 0%nat)
  + A 0%nat 2%nat * (A 1%nat 0%nat * A 2%nat 1%nat - A 1%nat 1%nat * A 2%nat 0%nat).

Definition adj3 (A : matrix) : matrix :=
  fun i j =>
    let i1 := ((j + 1) mod 3)%nat in let i2 := ((j + 2) mod 3)%nat in
    let j1 := ((i + 1) mod 3)%nat in let j2 := ((i + 2) mod 3)%nat in
    A i1 j1 * A i2 j2 - A i1 j2 * A i2 j1.

Definition inv_3x3 (A : matrix) : option matrix :=
  if Req_dec_T (det3 A) 0 then None
  else Some (fun i j => adj3 A i j / det3 A).

Definition inv_1x1 (A : matrix) : option matrix :=
  if Req_dec_T (A 0%nat 0%nat) 0 then None
  else Some (fun i j => 1 / A 0%nat 0%nat).

(** ** quaternion.py *)

Definition quaternion : Type := R * R * R * R.
Definition euler : Type := R * R * R.

Module MadgwickQuaternion.

Record t : Type := mk {
  beta : R;
  sample_freq : R;
  sample_period : R;
  q : quaternion;
  update_count : nat
}.

(** [__init__(beta, sample_freq)]; [1.0 / sample_freq] raises
    [ZeroDivisionError] on a zero frequency, which is [None] here. *)
Definition init (beta sample_freq : R) : option t :=
  if Req_dec_T sample_freq 0 then None
  else Some (mk beta sample_freq (1.0 / sample_freq) (1.0, 0.0, 0.0, 0.0) 0).

Definition get_euler_angles (s : t) : euler :=
  let '(q0, q1, q2, q3) := q s in
  let sinr_cosp := 2.0 * (q0 * q1 + q2 * q3) in
  let cosr_cosp := 1.0 - 2.0 * (q1 * q1 + q2 * q2) in
  let roll := atan2 sinr_cosp cosr_cosp in
  let sinp := 2.0 * (q0 * q2 - q3 * q1) in
  let pitch :=
    if Rge_dec (Rabs sinp) 1 then copysign (PI / 2) sinp else asin sinp in
  let siny_cosp := 2.0 * (q0 * q3 + q1 * q2) in
  let cosy_cosp := 1.0 - 2.0 * (q2 * q2 + q3 * q3) in
  let yaw := atan2 siny_cosp cosy_cosp in
  (degrees roll, degrees pitch, degrees yaw).

Definition get_quaternion (s : t) : quaternion := q s.

(** The four stores [self.q[i] = qi / norm]: all of them divide by the same
    [norm], so the stored quaternion is finite exactly when [norm <> 0]. *)
Definition store_normalized (s : t) (count : nat) (q0 q1 q2 q3 norm : R)
  : option t :=
  match np_div q0 norm, np_div q1 norm, np_div q2 norm, np_div q3 norm with
  | Some n0, Some n1, Some n2, Some n3 =>
      Some (mk (beta s) (sample_freq s) (sample_period s) (n0, n1, n2, n3) count)
  | _, _, _, _ => None
  end.

Definition _update_imu_gyro_only (s : t) (gx gy gz dt : R)
  : option (t * euler) :=
  let '(q0, q1, q2, q3) := q s in
  let qDot1 := 0.5 * (- q1 * gx - q2 * gy - q3 * gz) in
  let qDot2 := 0.5 * (q0 * gx + q2 * gz - q3 * gy) in
  let qDot3 := 0.5 * (q0 * gy - q1 * gz + q3 * gx) in
  let qDot4 := 0.5 * (q0 * gz + q1 * gy - q2 * gx) in
  let q0 := q0 + qDot1 * dt in
  let q1 := q1 + qDot2 * dt in
  let q2 := q2 + qDot3 * dt in
  let q3 := q3 + qDot4 * dt in
  let norm := sqrt (q0 * q0 + q1 * q1 + q2 * q2 + q3 * q3) in
  match store_normalized s (update_count s) q0 q1 q2 q3 norm with
  | Some s' => Some (s', get_euler_angles s')
  | None => None
  end.

(** The objective-function gradient [(s0, s1, s2, s3)] of lines 82-101, for
    the quaternion [(q0, q1, q2, q3)] and the normalized acceleration. *)
Definition gradient (q0 q1 q2 q3 ax ay az : R) : quaternion :=
  let _2q0 := 2.0 * q0 in
  let _2q1 := 2.0 * q1 in
  let _2q2 := 2.0 * q2 in
  let _2q3 := 2.0 * q3 in
  let _4q0 := 4.0 * q0 in
  let _4q1 := 4.0 * q1 in
  let _4q2 := 4.0 * q2 in
  let _8q1 := 8.0 * q1 in
  let _8q2 := 8.0 * q2 in
  let q0q0 := q0 * q0 in
  let q1q1 := q1 * q1 in
  let q2q2 := q2 * q2 in
  let q3q3 := q3 * q3 in
  let s0 := _4q0 * q2q2 + _2q2 * ax + _4q0 * q1q1 - _2q1 * ay in
  let s1 := _4q1 * q3q3 - _2q3 * ax + 4.0 * q0q0 * q1 - _2q0 * ay - _4q1
            + _8q1 * q1q1 + _8q1 * q2q2 + _4q1 * az in
  let s2 := 4.0 * q0q0 * q2 + _2q0 * ax + _4q2 * q3q3 - _2q3 * ay - _4q2
            + _8q2 * q1q1 + _8q2 * q2q2 + _4q2 * az in
  let s3 := 4.0 * q1q1 * q3 - _2q1 * ax + 4.0 * q2q2 * q3 - _2q2 * ay in
  (s0, s1, s2, s3).

(** [update(accel_x, accel_y, accel_z, gyro_x, gyro_y, gyro_z, dt=None)] *)
Definition update (s : t) (accel_x accel_y accel_z gyro_x gyro_y gyro_z : R)
           (dt : option R) : option (t * euler) :=
  let sample_period :=
    match dt with Some d => d | None => sample_period s end in
  let gx := radians gyro_x in
  let gy := radians gyro_y in
  let gz := radians gyro_z in
  let '(ax, ay, az) := (accel_x, accel_y, accel_z) in
  let norm := sqrt (ax * ax + ay * ay + az * az) in
  if Req_dec_T norm 0 then _update_imu_gyro_only s gx gy gz sample_period
  else
    let ax := ax / norm in
    let ay := ay / norm in
    let az := az / norm in
    let '(q0, q1, q2, q3) := q s in
    let '(s0, s1, s2, s3) := gradient q0 q1 q2 q3 ax ay az in
    let norm := sqrt (s0 * s0 + s1 * s1 + s2 * s2 + s3 * s3) in
    let '(s0, s1, s2, s3) :=
      if Rgt_dec norm 0
      then (s0 / norm, s1 / norm, s2 / norm, s3 / norm)
      else (s0, s1, s2, s3) in
    let qDot1 := 0.5 * (- q1 * gx - q2 * gy - q3 * gz) in
    let qDot2 := 0.5 * (q0 * gx + q2 * gz - q3 * gy) in
    let qDot3 := 0.5 * (q0 * gy - q1 * gz + q3 * gx) in
    let qDot4 := 0.5 * (q0 * gz + q1 * gy - q2 * gx) in
    let q0 := q0 + (qDot1 - beta s * s0) * sample_period in
    let q1 := q1 + (qDot2 - beta s * s1) * sample_period in
    let q2 := q2 + (qDot3 - beta s * s2) * sample_period in
    let q3 := q3 + (qDot4 - beta s * s3) * sample_period in
    let norm := sqrt (q0 * q0 + q1 * q1 + q2 * q2 + q3 * q3) in
    match store_normalized s (S (update_count s)) q0 q1 q2 q3 norm with
    | Some s' => Some (s', get_euler_angles s')
    | None => None
    end.

(** [get_rotation_matrix]: the 4 x 4 array, entry [i, j] (the rounding of the
    entries to [float32] is not modelled). *)
Definition get_rotation_matrix (s : t) : matrix :=
  let '(q0, q1, q2, q3) := q s in
  let q0q0 := q0 * q0 in
  let q1q1 := q1 * q1 in
  let q2q2 := q2 * q2 in
  let q3q3 := q3 * q3 in
  let q01 := q0 * q1 in
  let q02 := q0 * q2 in
  let q03 := q0 * q3 in
  let q12 := q1 * q2 in
  let q13 := q1 * q3 in
  let q23 := q2 * q3 in
  fun i j =>
    match i, j with
    | 0%nat, 0%nat => q0q0 + q1q1 - q2q2 - q3q3
    | 0%nat, 1%nat => 2.0 * (q12 - q03)
    | 0%nat, 2%nat => 2.0 * (q13 + q02)
    | 1%nat, 0%nat => 2.0 * (q12 + q03)
    | 1%nat, 1%nat => q0q0 - q1q1 + q2q2 - q3q3
    | 1%nat, 2%nat => 2.0 * (q23 - q01)
    | 2%nat, 0%nat => 2.0 * (q13 - q02)
    | 2%nat, 1%nat => 2.0 * (q23 + q01)
    | 2%nat, 2%nat => q0q0 - q1q1 - q2q2 + q3q3
    | 3%nat, 3%nat => 1.0
    | _, _ => 0.0
    end.

Definition reset (s : t) : t :=
  mk (beta s) (sample_freq s) (sample_period s) (1.0, 0.0, 0.0, 0.0) 0.

Definition set_beta (s : t) (b : R) : t :=
  mk (Rmax 0.01 (Rmin 0.5 b)) (sample_freq s) (sample_period s) (q s)
     (update_count s).

(** [w^2 + x^2 + y^2 + z^2], the squared norm of a quaternion. *)
Definition norm2 (p : quaternion) : R :=
  let '(w, x, y, z) := p in w * w + x * x + y * y + z * z.

(** A run of [update] calls, each with its own inputs and [dt]; [None] as
    soon as one call stores a non-finite quaternion. *)
Definition sample : Type := (R * R * R * R * R * R * option R)%type.

Fixpoint run (s : t) (inputs : list sample) : option t :=
  match inputs with
  | [] => Some s
  | (ax, ay, az, gx, gy, gz, dt) :: rest =>
      match update s ax ay az gx gy gz dt with
      | Some (s', _) => run s' rest
      | None => None
      end
  end.

End MadgwickQuaternion.

Module AttitudeCalculator.

(** A [MadgwickQuaternion] (the base class part) with three more
    attributes. *)
Record t : Type := mk {
  base : MadgwickQuaternion.t;
  roll : R;
  pitch : R;
  yaw : R
}.

Definition init (alpha : R) : option t :=
  let beta := (1 - alpha) * 2.0 in
  let beta := Rmax 0.033 (Rmin 0.3 beta) in
  match MadgwickQuaternion.init beta 10.0 with
  | Some b => Some (mk b 0.0 0.0 0.0)
  | None => None
  end.

Definition update (c : t) (accel_x accel_y accel_z gyro_x gyro_y gyro_z dt : R)
  : option (t * euler) :=
  match MadgwickQuaternion.update (base c) accel_x accel_y accel_z
                                  gyro_x gyro_y gyro_z (Some dt) with
  | Some (b, (roll, pitch, yaw)) => Some (mk b roll pitch yaw, (roll, pitch, yaw))
  | None => None
  end.

(** [reset] and [get_quaternion] are inherited from [MadgwickQuaternion]:
    [reset] does not touch the three angle attributes. *)
Definition reset (c : t) : t :=
  mk (MadgwickQuaternion.reset (base c)) (roll c) (pitch c) (yaw c).

Definition get_quaternion (c : t) : quaternion :=
  MadgwickQuaternion.get_quaternion (base c).

(** A run of [update] calls, each with its inputs and its [dt]. *)
Fixpoint run (c : t) (inputs : list (R * R * R * R * R * R * R)) : option t :=
  match inputs with
  | [] => Some c
  | (ax, ay, az, gx, gy, gz, dt) :: rest =>
      match update c ax ay az gx gy gz dt with
      | Some (c', _) => run c' rest
      | None => None
      end
  end.

(** The gain as the interface contract words it. *)
Definition beta_of_alpha (alpha : R) : R :=
  Rmin 0.3 (Rmax 0.033 (2 * (1 - alpha))).

End AttitudeCalculator.

(** ** 3d/renderer.py *)

Module GL3DWidget.

(** The 16 numbers that [_apply_quaternion_rotation] builds from
    [self.quaternion = [w, x, y, z]] and hands to [glMultMatrixf], which reads
    them in column-major order. *)
Definition _apply_quaternion_rotation (quaternion : quaternion) : list R :=
  let '(w, x, y, z) := quaternion in
  let xx := x * x in
  let xy := x * y in
  let xz := x * z in
  let xw := x * w in
  let yy := y * y in
  let yz := y * z in
  let yw := y * w in
  let zz := z * z in
  let zw := z * w in
  [ 1.0 - 2.0 * (yy + zz); 2.0 * (xy + zw); 2.0 * (xz - yw); 0.0;
    2.0 * (xy - zw); 1.0 - 2.0 * (xx + zz); 2.0 * (yz + xw); 0.0;
    2.0 * (xz + yw); 2.0 * (yz - xw); 1.0 - 2.0 * (xx + yy); 0.0;
    0.0; 0.0; 0.0; 1.0 ].

End GL3DWidget.

Definition euler_to_quaternion (roll pitch yaw : R) : quaternion :=
  let roll_rad := radians roll in
  let pitch_rad := radians pitch in
  let yaw_rad := radians yaw in
  let cr := cos (roll_rad * 0.5) in
  let sr := sin (roll_rad * 0.5) in
  let cp := cos (pitch_rad * 0.5) in
  let sp := sin (pitch_rad * 0.5) in
  let cy := cos (yaw_rad * 0.5) in
  let sy := sin (yaw_rad * 0.5) in
  let w := cr * cp * cy + sr * sp * sy in
  let x := sr * cp * cy - cr * sp * sy in
  let y := cr * sp * cy + sr * cp * sy in
  let z := cr * cp * sy - sr * sp * cy in
  (w, x, y, z).

Definition quaternion_to_euler (w x y z : R) : euler :=
  let sinr_cosp := 2 * (w * x + y * z) in
  let cosr_cosp := 1 - 2 * (x * x + y * y) in
  let roll := atan2 sinr_cosp cosr_cosp in
  let sinp := 2 * (w * y - z * x) in
  let pitch :=
    if Rge_dec (Rabs sinp) 1 then copysign (PI / 2) sinp else asin sinp in
  let siny_cosp := 2 * (w * z + x * y) in
  let cosy_cosp := 1 - 2 * (y * y + z * z) in
  let yaw := atan2 siny_cosp cosy_cosp in
  (degrees roll, degrees pitch, degrees yaw).


(** ** kalman_filter.py *)

Module ExtendedKalmanFilter.

Record t : Type := mk {
  state : vector;
  P : matrix;
  Q : matrix;
  R_accel : matrix;
  R_mag : matrix;
  gyro_noise : R;
  accel_trust_factor : R;
  mag_trust_factor : R;
  update_count : nat
}.

(** Assignment to one attribute of the object. *)
Definition with_state (s : t) (x : vector) : t :=
  mk x (P s) (Q s) (R_accel s) (R_mag s) (gyro_noise s)
     (accel_trust_factor s) (mag_trust_factor s) (update_count s).
Definition with_P (s : t) (p : matrix) : t :=
  mk (state s) p (Q s) (R_accel s) (R_mag s) (gyro_noise s)
     (accel_trust_factor s) (mag_trust_factor s) (update_count s).
Definition with_Q (s : t) (q : matrix) : t :=
  mk (state s) (P s) q (R_accel s) (R_mag s) (gyro_noise s)
     (accel_trust_factor s) (mag_trust_factor s) (update_count s).
Definition with_accel_trust_factor (s : t) (f : R) : t :=
  mk (state s) (P s) (Q s) (R_accel s) (R_mag s) (gyro_noise s)
     f (mag_trust_factor s) (update_count s).
Definition with_mag_trust_factor (s : t) (f : R) : t :=
  mk (state s) (P s) (Q s) (R_accel s) (R_mag s) (gyro_noise s)
     (accel_trust_factor s) f (update_count s).

(** [__init__(process_noise, accel_noise, gyro_noise, mag_noise)] *)
Definition init (process_noise accel_noise gyro_noise mag_noise : R) : t :=
  let Q := eye in
  let Q := block_scale Q 0 3 process_noise in
  let Q := block_scale Q 3 6 (process_noise * 0.001) in
  mk vzeros (mscale eye 1.0) Q
     (mscale eye (accel_noise ^ 2)) (mscale eye (mag_noise ^ 2))
     gyro_noise 1.0 1.0 0.

(** The two [while] loops of [_normalize_angle], each run for at most [fuel]
    tests of its condition; [None] when the fuel runs out first. *)
Fixpoint wrap_down (fuel : nat) (angle : R) : option R :=
  match fuel with
  | O => None
  | S k => if Rgt_dec angle PI then wrap_down k (angle - 2 * PI) else Some angle
  end.

Fixpoint wrap_up (fuel : nat) (angle : R) : option R :=
  match fuel with
  | O => None
  | S k => if Rlt_dec angle (- PI) then wrap_up k (angle + 2 * PI) else Some angle
  end.

Definition normalize_angle_fuel (fuel : nat) (angle : R) : option R :=
  match wrap_down fuel angle with
  | Some a => wrap_up fuel a
  | None => None
  end.

(** A number of loop tests that is enough for the real number [angle] (see
    [normalize_angle_fuel_spec]). *)
Definition loop_bound (angle : R) : nat :=
  S (Z.to_nat (up (Rabs angle / (2 * PI)))).

(** The value [_normalize_angle(angle)] returns, when it returns.  Over the
    reals [loop_bound angle] tests are enough; the [float64] loops of the
    source need not exit (see [Float64] below), so this definition says what
    a call returns and not that it does. *)
Definition _normalize_angle (angle : R) : R :=
  match normalize_angle_fuel (loop_bound angle) angle with
  | Some a => a
  | None => angle
  end.

(** The division guard of [predict] and [_compute_state_jacobian]:
    [if abs(cos_pitch) < 0.01: cos_pitch = 0.01 if cos_pitch >= 0 else -0.01]. *)
Definition clamp_cos_pitch (cos_pitch : R) : R :=
  if Rlt_dec (Rabs cos_pitch) 0.01
  then (if Rge_dec cos_pitch 0 then 0.01 else -0.01)
  else cos_pitch.

Definition _compute_state_jacobian (s : t) (gx gy gz dt : R) : matrix :=
  let F := eye in
  let roll := state s 0%nat in
  let pitch := state s 1%nat in
  let sin_roll := sin roll in
  let cos_roll := cos roll in
  let sin_pitch := sin pitch in
  let cos_pitch := cos pitch in
  let tan_pitch := tan pitch in
  let cos_pitch := clamp_cos_pitch cos_pitch in
  let F := mset F 0 0 (1.0 + dt * (cos_roll * tan_pitch * gy
                                   - sin_roll * tan_pitch * gz)) in
  let F := mset F 0 1 (dt * (sin_roll / (cos_pitch ^ 2) * gy
                             + cos_roll / (cos_pitch ^ 2) * gz)) in
  let F := mset F 1 0 (dt * (- sin_roll * gy - cos_roll * gz)) in
  let F := mset F 1 1 1.0 in
  let F := mset F 2 0 (dt * ((cos_roll / cos_pitch) * gy
                             - (sin_roll / cos_pitch) * gz)) in
  let F := mset F 2 1 (dt * (sin_roll * sin_pitch / (cos_pitch ^ 2) * gy
                             + cos_roll * sin_pitch / (cos_pitch ^ 2) * gz)) in
  let F := mset F 2 2 1.0 in
  let F := mset F 0 3 (- dt) in
  let F := mset F 0 4 (- dt * sin_roll * tan_pitch) in
  let F := mset F 0 5 (- dt * cos_roll * tan_pitch) in
  let F := mset F 1 4 (- dt * cos_roll) in
  let F := mset F 1 5 (dt * sin_roll) in
  let F := mset F 2 4 (- dt * sin_roll / cos_pitch) in
  let F := mset F 2 5 (- dt * cos_roll / cos_pitch) in
  F.

Definition predict (s : t) (gyro_x gyro_y gyro_z dt : R) : t :=
  let gx := radians gyro_x in
  let gy := radians gyro_y in
  let gz := radians gyro_z in
  let roll := state s 0%nat in
  let pitch := state s 1%nat in
  let yaw := state s 2%nat in
  let bias_x := state s 3%nat in
  let bias_y := state s 4%nat in
  let bias_z := state s 5%nat in
  let gx_corrected := gx - bias_x in
  let gy_corrected := gy - bias_y in
  let gz_corrected := gz - bias_z in
  let sin_roll := sin roll in
  let cos_roll := cos roll in
  let sin_pitch := sin pitch in
  let cos_pitch := cos pitch in
  let tan_pitch := tan pitch in
  let cos_pitch := clamp_cos_pitch cos_pitch in
  let droll := gx_corrected + sin_roll * tan_pitch * gy_corrected
               + cos_roll * tan_pitch * gz_corrected in
  let dpitch := cos_roll * gy_corrected - sin_roll * gz_corrected in
  let dyaw := (sin_roll / cos_pitch) * gy_corrected
              + (cos_roll / cos_pitch) * gz_corrected in
  let x := state s in
  let x := vset x 0 (x 0%nat + droll * dt) in
  let x := vset x 1 (x 1%nat + dpitch * dt) in
  let x := vset x 2 (x 2%nat + dyaw * dt) in
  let x := vset x 0 (_normalize_angle (x 0%nat)) in
  let x := vset x 1 (_normalize_angle (x 1%nat)) in
  let x := vset x 2 (_normalize_angle (x 2%nat)) in
  let s := with_state s x in
  let F := _compute_state_jacobian s gx_corrected gy_corrected gz_corrected dt in
  with_P s (madd (mmul 6 (mmul 6 F (P s)) (mT F)) (Q s)).

(** The trust factor chosen at lines 138-144 from the norm of the
    acceleration. *)
Definition accel_trust (norm : R) : R :=
  let accel_magnitude_error := Rabs (norm - 1.0) in
  if Rgt_dec accel_magnitude_error 0.5 then 0.3
  else if Rgt_dec accel_magnitude_error 0.2 then 0.7
  else 1.0.

(** The measurement noise of lines 171-172: [R = self.R_accel.copy()] then
    [R *= 1.0 / max(0.1, self.accel_trust_factor)]. *)
Definition accel_R (s : t) : matrix :=
  mscale (R_accel s) (1.0 / Rmax 0.1 (accel_trust_factor s)).

(** The same for the magnetometer, lines 215-216. *)
Definition mag_R (s : t) : matrix :=
  mscale (R_mag s) (1.0 / Rmax 0.1 (mag_trust_factor s)).

Definition update_accel (s : t) (accel_x accel_y accel_z : R) : result t t :=
  let norm := sqrt (accel_x ^ 2 + accel_y ^ 2 + accel_z ^ 2) in
  if Rlt_dec norm 0.1 then Done s
  else
    let ax := accel_x / norm in
    let ay := accel_y / norm in
    let az := accel_z / norm in
    let s := with_accel_trust_factor s (accel_trust norm) in
    let measured_roll := atan2 ay az in
    let measured_pitch := atan2 (- ax) (sqrt (ay ^ 2 + az ^ 2)) in
    let z := vec3 measured_roll measured_pitch 0.0 in
    let h := vec3 (state s 0%nat) (state s 1%nat) 0.0 in
    let y := fun i => z i - h i in
    let y := vset y 0 (_normalize_angle (y 0%nat)) in
    let y := vset y 1 (_normalize_angle (y 1%nat)) in
    let H := zeros in
    let H := mset H 0 0 1.0 in
    let H := mset H 1 1 1.0 in
    let R := accel_R s in
    let S := madd (mmul 6 (mmul 6 H (P s)) (mT H)) R in
    match inv_3x3 S with
    | None => LinAlgError s
    | Some S_inv =>
        let K := mmul 3 (mmul 6 (P s) (mT H)) S_inv in
        let x := vadd (state s) (mv 3 K y) in
        let x := vset x 0 (_normalize_angle (x 0%nat)) in
        let x := vset x 1 (_normalize_angle (x 1%nat)) in
        let x := vset x 2 (_normalize_angle (x 2%nat)) in
        let s := with_state s x in
        let I := eye in
        Done (with_P s (mmul 6 (msub I (mmul 3 K H)) (P s)))
    end.

Definition update_magnetometer (s : t) (mag_angle : R) : result t t :=
  let measured_yaw := _normalize_angle (radians mag_angle) in
  let z := vec1 measured_yaw in
  let h := vec1 (state s 2%nat) in
  let y := fun i => z i - h i in
  let y := vset y 0 (_normalize_angle (y 0%nat)) in
  let H := zeros in
  let H := mset H 0 2 1.0 in
  let R := mag_R s in
  let S := madd (mmul 6 (mmul 6 H (P s)) (mT H)) R in
  match inv_1x1 S with
  | None => LinAlgError s
  | Some S_inv =>
      let K := mmul 1 (mmul 6 (P s) (mT H)) S_inv in
      let x := vadd (state s) (mv 1 K y) in
      let x := vset x 0 (_normalize_angle (x 0%nat)) in
      let x := vset x 1 (_normalize_angle (x 1%nat)) in
      let x := vset x 2 (_normalize_angle (x 2%nat)) in
      let s := with_state s x in
      let I := eye in
      Done (with_P s (mmul 6 (msub I (mmul 1 K H)) (P s)))
  end.

Definition get_euler_angles (s : t) : euler :=
  (degrees (state s 0%nat), degrees (state s 1%nat), degrees (state s 2%nat)).

Definition get_gyro_bias (s : t) : euler :=
  (degrees (state s 3%nat), degrees (state s 4%nat), degrees (state s 5%nat)).

Definition set_mag_trust (s : t) (trust_factor : R) : t :=
  with_mag_trust_factor s (Rmax 0.0 (Rmin 1.0 trust_factor)).

Definition set_process_noise (s : t) (noise_level : R) : t :=
  let Q := block_assign (Q s) 0 3 (mscale eye noise_level) in
  let Q := block_assign Q 3 6 (mscale (mscale eye noise_level) 0.001) in
  with_Q s Q.

Definition reset (s : t) : t :=
  mk vzeros (mscale eye 1.0) (Q s) (R_accel s) (R_mag s) (gyro_noise s)
     1.0 1.0 0.

(** [get_state_covariance]: standard deviations of the three angles, in
    degrees; [None] when a [math.sqrt] raises [ValueError]. *)
Definition get_state_covariance (s : t) : option euler :=
  match math_sqrt (P s 0%nat 0%nat), math_sqrt (P s 1%nat 1%nat),
        math_sqrt (P s 2%nat 2%nat) with
  | Some a, Some b, Some c => Some (degrees a, degrees b, degrees c)
  | _, _, _ => None
  end.

(** The covariance matrices of a filter are symmetric and positive
    semi-definite: the state covariance [P], the process noise [Q] and the two
    measurement noises. *)
Definition covariances_ok (s : t) : Prop :=
  symmetric 6 (P s) /\ psd 6 (P s) /\
  symmetric 6 (Q s) /\ psd 6 (Q s) /\
  symmetric 3 (R_accel s) /\ psd 3 (R_accel s) /\
  symmetric 1 (R_mag s) /\ psd 1 (R_mag s).

(** The calls that change a filter, and the filter after a sequence of them
    (a call that raises leaves the filter as the exception finds it, and the
    caller goes on with it). *)
Inductive call : Type :=
| Predict (gyro_x gyro_y gyro_z dt : R)
| UpdateAccel (accel_x accel_y accel_z : R)
| UpdateMagnetometer (mag_angle : R)
| SetMagTrust (trust_factor : R)
| SetProcessNoise (noise_level : R)
| Reset.

Definition apply_call (s : t) (c : call) : t :=
  match c with
  | Predict gx gy gz dt => predict s gx gy gz dt
  | UpdateAccel ax ay az => after (update_accel s ax ay az)
  | UpdateMagnetometer angle => after (update_magnetometer s angle)
  | SetMagTrust f => set_mag_trust s f
  | SetProcessNoise level => set_process_noise s level
  | Reset => reset s
  end.

Definition apply_calls (s : t) (calls : list call) : t :=
  fold_left apply_call calls s.

(** A call that does not set a negative process noise. *)
Definition noise_nonnegative (c : call) : Prop :=
  match c with
  | SetProcessNoise level => 0 <= level
  | _ => True
  end.


(** [Q] has no entry that couples an attitude component with a bias. *)
Definition Q_blocks_only (s : t) : Prop :=
  forall i j, (i < 6)%nat -> (j < 6)%nat ->
              ((i < 3)%nat /\ (3 <= j)%nat) \/ ((j < 3)%nat /\ (3 <= i)%nat) ->
              Q s i j = 0.

End ExtendedKalmanFilter.

(** ** [_normalize_angle] over [float64]

    The same two loops on IEEE binary64 numbers (the primitive floats, which
    compute as the [float] of Python does): [math_pi] is the binary64 number
    nearest to pi, as [math.pi] is, and [-=], [+=], [>], [<] and the unary
    minus are the binary64 operations.  [None] means, as above, that [fuel]
    loop tests were not enough. *)
Module Float64.

Import PrimFloat.

Definition math_pi : float := 0x1.921fb54442d18p+1%float.

Fixpoint wrap_down (fuel : nat) (angle : float) : option float :=
  match fuel with
  | O => None
  | S k => if ltb math_pi angle
           then wrap_down k (angle - 2 * math_pi)%float
           else Some angle
  end.

Fixpoint wrap_up (fuel : nat) (angle : float) : option float :=
  match fuel with
  | O => None
  | S k => if ltb angle (- math_pi)%float
           then wrap_up k (angle + 2 * math_pi)%float
           else Some angle
  end.

Definition normalize_angle_fuel (fuel : nat) (angle : float) : option float :=
  match wrap_down fuel angle with
  | Some a => wrap_up fuel a
  | None => None
  end.

End Float64.

Module AdaptiveEKFAttitudeEstimator.

Record t : Type := mk {
  ekf : ExtendedKalmanFilter.t;
  accel_history : list R;
  max_history_len : nat;
  update_count : nat
}.

Definition init : t :=
  mk (ExtendedKalmanFilter.init 0.01 0.1 0.01 0.05) [] 10 0.

Definition _adapt_process_noise (e : t) (ax ay az : R) : t :=
  let accel_mag := sqrt (ax ^ 2 + ay ^ 2 + az ^ 2) in
  let history := accel_history e ++ [accel_mag] in
  let history :=
    if Nat.ltb (max_history_len e) (length history) then tl history
    else history in
  if Nat.leb 3 (length history) then
    let accel_std := np_std history in
    let noise_level :=
      if Rgt_dec accel_std 0.3 then 0.05
      else if Rgt_dec accel_std 0.1 then 0.02
      else 0.01 in
    mk (ExtendedKalmanFilter.set_process_noise (ekf e) noise_level)
       history (max_history_len e) (update_count e)
  else
    mk (ekf e) history (max_history_len e) (update_count e).

Definition with_ekf (e : t) (k : ExtendedKalmanFilter.t) : t :=
  mk k (accel_history e) (max_history_len e) (update_count e).

(** [update(accel, gyro, mag_angle=None, mag_valid=False, dt=0.1)]: an
    exception of a correction step leaves the method at once. *)
Definition update (e : t) (accel_x accel_y accel_z gyro_x gyro_y gyro_z : R)
           (mag_angle : option R) (mag_valid : bool) (dt : R)
  : result (t * euler) t :=
  let k := ExtendedKalmanFilter.predict (ekf e) gyro_x gyro_y gyro_z dt in
  match ExtendedKalmanFilter.update_accel k accel_x accel_y accel_z with
  | LinAlgError k => LinAlgError (with_ekf e k)
  | Done k =>
      let corrected :=
        match mag_valid, mag_angle with
        | true, Some angle => ExtendedKalmanFilter.update_magnetometer k angle
        | _, _ => Done k
        end in
      match corrected with
      | LinAlgError k => LinAlgError (with_ekf e k)
      | Done k =>
          let e := _adapt_process_noise (with_ekf e k) accel_x accel_y accel_z in
          let e := mk (ekf e) (accel_history e) (max_history_len e)
                      (S (update_count e)) in
          Done (e, ExtendedKalmanFilter.get_euler_angles (ekf e))
      end
  end.

Definition reset (e : t) : t :=
  mk (ExtendedKalmanFilter.reset (ekf e)) [] (max_history_len e) 0.

Definition get_euler_angles (e : t) : euler :=
  ExtendedKalmanFilter.get_euler_angles (ekf e).

Definition get_gyro_bias (e : t) : euler :=
  ExtendedKalmanFilter.get_gyro_bias (ekf e).

Definition get_uncertainty (e : t) : option euler :=
  ExtendedKalmanFilter.get_state_covariance (ekf e).

Definition set_mag_trust (e : t) (trust_factor : R) : t :=
  with_ekf e (ExtendedKalmanFilter.set_mag_trust (ekf e) trust_factor).

(** The calls that change an estimator, and a run of them that stops at the
    first exception. *)
Inductive call : Type :=
| Update (accel_x accel_y accel_z gyro_x gyro_y gyro_z : R)
         (mag_angle : option R) (mag_valid : bool) (dt : R)
| SetMagTrust (trust_factor : R)
| Reset.

Definition apply_call (e : t) (c : call) : result t t :=
  match c with
  | Update ax ay az gx gy gz mag_angle mag_valid dt =>
      match update e ax ay az gx gy gz mag_angle mag_valid dt with
      | Done (e', _) => Done e'
      | LinAlgError e' => LinAlgError e'
      end
  | SetMagTrust f => Done (set_mag_trust e f)
  | Reset => Done (reset e)
  end.

Fixpoint run (e : t) (calls : list call) : result t t :=
  match calls with
  | [] => Done e
  | c :: rest =>
      match apply_call e c with
      | Done e' => run e' rest
      | LinAlgError e' => LinAlgError e'
      end
  end.

(** An estimator whose filter has symmetric positive semi-definite
    covariances, a block-diagonal [Q] and positive measurement variances, as
    the constructor builds it. *)
Definition estimator_ok (e : t) : Prop :=
  ExtendedKalmanFilter.covariances_ok (ekf e) /\
  ExtendedKalmanFilter.Q_blocks_only (ekf e) /\
  (exists r, 0 < r /\
     forall i j, (i < 3)%nat -> (j < 3)%nat ->
                 ExtendedKalmanFilter.R_accel (ekf e) i j = eye i j * r) /\
  0 < ExtendedKalmanFilter.R_mag (ekf e) 0%nat 0%nat.

End AdaptiveEKFAttitudeEstimator.

(* ================================================================== *)
(** * Part II: properties                                              *)
(* ================================================================== *)

(** ** Angle normalization *)

Section NormalizeAngle.

Import ExtendedKalmanFilter.

Lemma wrap_down_more_fuel (n m : nat) (a r : R) :
  wrap_down n a = Some r -> (n <= m)%nat -> wrap_down m a = Some r.
Proof.
  revert m a. induction n as [|n IH]; intros m a Hn Hle; simpl in Hn.
  - discriminate.
  - destruct m as [|m]; [lia|]. simpl.
    destruct (Rgt_dec a PI); [apply IH; [assumption | lia] | assumption].
Qed.

Lemma wrap_up_more_fuel (n m : nat) (a r : R) :
  wrap_up n a = Some r -> (n <= m)%nat -> wrap_up m a = Some r.
Proof.
  revert m a. induction n as [|n IH]; intros m a Hn Hle; simpl in Hn.
  - discriminate.
  - destruct m as [|m]; [lia|]. simpl.
    destruct (Rlt_dec a (- PI)); [apply IH; [assumption | lia] | assumption].
Qed.

(** The first loop stops after at most [n] subtractions when
    [a <= PI + 2 PI n], at the first value that is at most [PI]. *)
Lemma wrap_down_spec (n : nat) (a : R) :
  a <= PI + 2 * PI * INR n ->
  exists r, wrap_down (S n) a = Some r /\ r <= PI /\
            (a <= PI -> r = a) /\ (PI < a -> - PI < r) /\
            exists k : nat, r = a - 2 * PI * INR k.
Proof.
  revert a. induction n as [|n IH]; intros a Ha.
  - simpl in Ha. exists a. simpl.
    destruct (Rgt_dec a PI) as [Hgt|Hngt]; [lra|].
    repeat split; try lra. exists 0%nat. simpl. lra.
  - change (wrap_down (S (S n)) a)
      with (if Rgt_dec a PI then wrap_down (S n) (a - 2 * PI) else Some a).
    destruct (Rgt_dec a PI) as [Hgt|Hngt].
    + rewrite S_INR in Ha.
      destruct (IH (a - 2 * PI)) as (r & Hr & Hle & Hid & Hlow & k & Hk); [lra|].
      exists r. split; [assumption|]. split; [assumption|].
      split; [intros; lra|]. split.
      * intros _. destruct (Rle_dec (a - 2 * PI) PI) as [Hs|Hs].
        -- rewrite (Hid Hs). lra.
        -- apply Hlow. lra.
      * exists (S k). rewrite S_INR. lra.
    + exists a. repeat split; try lra. exists 0%nat. simpl. lra.
Qed.

Lemma wrap_up_spec (n : nat) (a : R) :
  - PI - 2 * PI * INR n <= a ->
  exists r, wrap_up (S n) a = Some r /\ - PI <= r /\
            (- PI <= a -> r = a) /\ (a < - PI -> r < PI) /\
            exists k : nat, r = a + 2 * PI * INR k.
Proof.
  revert a. induction n as [|n IH]; intros a Ha.
  - simpl in Ha. exists a. simpl.
    destruct (Rlt_dec a (- PI)) as [Hlt|Hnlt]; [lra|].
    repeat split; try lra. exists 0%nat. simpl. lra.
  - change (wrap_up (S (S n)) a)
      with (if Rlt_dec a (- PI) then wrap_up (S n) (a + 2 * PI) else Some a).
    destruct (Rlt_dec a (- PI)) as [Hlt|Hnlt].
    + rewrite S_INR in Ha.
      destruct (IH (a + 2 * PI)) as (r & Hr & Hge & Hid & Hhigh & k & Hk); [lra|].
      exists r. split; [assumption|]. split; [assumption|].
      split; [intros; lra|]. split.
      * intros _. destruct (Rle_dec (- PI) (a + 2 * PI)) as [Hs|Hs].
        -- rewrite (Hid Hs). lra.
        -- apply Hhigh. lra.
      * exists (S k). rewrite S_INR. lra.
    + exists a. repeat split; try lra. exists 0%nat. simpl. lra.
Qed.

(** [loop_bound] counts enough tests: [|a| < 2 PI (loop_bound a - 1)]. *)
Lemma loop_bound_enough (a : R) :
  exists n : nat, loop_bound a = S n /\ Rabs a < 2 * PI * INR n.
Proof.
  unfold loop_bound. set (x := Rabs a / (2 * PI)).
  exists (Z.to_nat (up x)). split; [reflexivity|].
  assert (Hpi : 0 < 2 * PI) by (pose proof PI_RGT_0; lra).
  assert (Hx : 0 <= x).
  { unfold x. apply Rmult_le_pos; [apply Rabs_pos | left; now apply Rinv_0_lt_compat]. }
  destruct (archimed x) as [Hup _].
  assert (Hz : (0 <= up x)%Z).
  { apply le_IZR. simpl. lra. }
  rewrite INR_IZR_INZ, Z2Nat.id by assumption.
  assert (Heq : Rabs a = x * (2 * PI)) by (unfold x; field; lra).
  rewrite Heq. rewrite (Rmult_comm (2 * PI)).
  apply Rmult_lt_compat_r; lra.
Qed.

(** The two loops in sequence: they stop, in [[-PI, PI]], at a value that
    differs from the input by a multiple of [2 PI]. *)
Lemma normalize_angle_fuel_spec (a : R) :
  exists r, normalize_angle_fuel (loop_bound a) a = Some r /\
            - PI <= r <= PI /\
            (- PI <= a <= PI -> r = a) /\
            (- PI < a -> - PI < r) /\
            (a <= PI -> r < PI \/ r = a) /\
            exists k : Z, r = a + 2 * PI * IZR k.
Proof.
  destruct (loop_bound_enough a) as (n & Hn & Hbound).
  pose proof PI_RGT_0 as Hpi.
  assert (Ha : - Rabs a <= a <= Rabs a).
  { split; [pose proof (Rle_abs (- a)); rewrite Rabs_Ropp in *; lra | apply Rle_abs]. }
  assert (Hpos : 0 <= INR n) by apply pos_INR.
  destruct (wrap_down_spec n a) as (r1 & Hr1 & Hle1 & Hid1 & Hlow1 & k1 & Hk1); [nra|].
  assert (Hr1a : - PI - 2 * PI * INR n <= r1).
  { destruct (Rle_dec a PI) as [Hs|Hs]; [rewrite (Hid1 Hs); nra | ].
    assert (- PI < r1) by (apply Hlow1; lra). nra. }
  destruct (wrap_up_spec n r1 Hr1a) as (r2 & Hr2 & Hge2 & Hid2 & Hhigh2 & k2 & Hk2).
  exists r2. unfold normalize_angle_fuel. rewrite Hn, Hr1, Hr2.
  split; [reflexivity|].
  assert (Hr2le : r2 <= PI).
  { destruct (Rle_dec (- PI) r1) as [Hs|Hs]; [rewrite (Hid2 Hs); assumption|].
    left. apply Hhigh2. lra. }
  repeat split; try assumption.
  - intros [Hlo Hhi]. rewrite Hid2; rewrite Hid1; lra.
  - intros Hlo. destruct (Rle_dec a PI) as [Hs|Hs].
    + rewrite Hid2; rewrite Hid1; lra.
    + assert (- PI < r1) by (apply Hlow1; lra). rewrite Hid2; lra.
  - intros Hhi. rewrite (Hid1 Hhi) in *.
    destruct (Rle_dec (- PI) a) as [Hs|Hs].
    + right. now apply Hid2.
    + left. apply Hhigh2. lra.
  - exists (Z.of_nat k2 - Z.of_nat k1)%Z.
    rewrite minus_IZR, <- !INR_IZR_INZ. lra.
Qed.

Lemma normalize_angle_id (a : R) :
  - PI <= a <= PI -> _normalize_angle a = a.
Proof.
  intros Ha. unfold _normalize_angle.
  destruct (normalize_angle_fuel_spec a) as (r & Hr & _ & Hid & _).
  rewrite Hr. now apply Hid.
Qed.

End NormalizeAngle.

Section NormalizeAngleClaims.

Import ExtendedKalmanFilter.

Lemma normalize_angle_fuel_more (n m : nat) (a r : R) :
  normalize_angle_fuel n a = Some r -> (n <= m)%nat ->
  normalize_angle_fuel m a = Some r.
Proof.
  unfold normalize_angle_fuel. intros H Hle.
  destruct (wrap_down n a) as [r1|] eqn:E1; [|discriminate].
  rewrite (wrap_down_more_fuel n m a r1 E1 Hle).
  now apply (wrap_up_more_fuel n m).
Qed.

(** The two loops return [-PI] exactly on the inputs [-PI - 2 PI k]. *)
Lemma normalize_angle_fuel_minus_pi (a : R) :
  exists r, normalize_angle_fuel (loop_bound a) a = Some r /\
            (r = - PI <-> exists k : nat, a = - PI - 2 * PI * INR k).
Proof.
  destruct (loop_bound_enough a) as (n & Hn & Hbound).
  pose proof PI_RGT_0 as Hpi.
  assert (Ha : - Rabs a <= a <= Rabs a).
  { split; [pose proof (Rle_abs (- a)); rewrite Rabs_Ropp in *; lra | apply Rle_abs]. }
  assert (Hpos : 0 <= INR n) by apply pos_INR.
  destruct (wrap_down_spec n a) as (r1 & Hr1 & Hle1 & Hid1 & Hlow1 & _); [nra|].
  assert (Hr1a : - PI - 2 * PI * INR n <= r1).
  { destruct (Rle_dec a PI) as [Hs|Hs]; [rewrite (Hid1 Hs); nra | ].
    assert (- PI < r1) by (apply Hlow1; lra). nra. }
  destruct (wrap_up_spec n r1 Hr1a) as (r2 & Hr2 & Hge2 & Hid2 & Hhigh2 & k2 & Hk2).
  exists r2. unfold normalize_angle_fuel. rewrite Hn, Hr1, Hr2.
  split; [reflexivity|]. split.
  - intros E. destruct (Rle_dec a PI) as [Hs|Hs].
    + exists k2. rewrite (Hid1 Hs) in Hk2. lra.
    + assert (- PI < r1) by (apply Hlow1; lra).
      rewrite Hid2 in E by lra. lra.
  - intros [k Hk].
    assert (Hk0 : 0 <= INR k) by apply pos_INR.
    assert (Hs : a <= PI) by nra.
    rewrite (Hid1 Hs) in *.
    destruct (Rle_dec (- PI) a) as [Hlo|Hlo].
    + rewrite (Hid2 Hlo). nra.
    + assert (Hlt : r2 < PI) by (apply Hhigh2; lra).
      assert (Hkk : k2 = k).
      { apply Nat.le_antisymm.
        - apply Nat.lt_succ_r. apply INR_lt. rewrite S_INR. nra.
        - apply INR_le. nra. }
      subst k2. lra.
Qed.

(** C7 (as amended).  Whenever the two loops of [_normalize_angle] exit (within
    any number [fuel] of loop tests), the value [r] they return lies in the
    closed interval [[-PI, PI]] and differs from the input by an integer
    multiple of [2 PI]; an input of [[-PI, PI]] is returned as it is; and [r]
    is [-PI] exactly on the inputs [-PI - 2 PI k] with [k = 0, 1, 2, ...], so
    every other input gives a value strictly above [-PI].  That the loops
    exit is a hypothesis here, not a conclusion. *)
Theorem normalize_angle_result_in_closed_range (fuel : nat) (angle r : R) :
  normalize_angle_fuel fuel angle = Some r ->
  - PI <= r <= PI /\
  (exists k : Z, r = angle + 2 * PI * IZR k) /\
  (- PI <= angle <= PI -> r = angle) /\
  (r = - PI <-> exists k : nat, angle = - PI - 2 * PI * INR k) /\
  ((forall k : nat, angle <> - PI - 2 * PI * INR k) -> - PI < r) /\
  _normalize_angle angle = r.
Proof.
  intros Hr.
  destruct (normalize_angle_fuel_spec angle)
    as (r' & Hr' & Hrange & Hid & _ & _ & Hk).
  destruct (normalize_angle_fuel_minus_pi angle) as (r'' & Hr'' & Hminus).
  assert (E : r' = r).
  { pose proof (normalize_angle_fuel_more _ (Nat.max fuel (loop_bound angle))
                  _ _ Hr (Nat.le_max_l _ _)) as H1.
    pose proof (normalize_angle_fuel_more _ (Nat.max fuel (loop_bound angle))
                  _ _ Hr' (Nat.le_max_r _ _)) as H2.
    congruence. }
  assert (E' : r'' = r) by congruence.
  subst r' r''.
  split; [exact Hrange|]. split; [exact Hk|]. split; [exact Hid|].
  split; [exact Hminus|]. split.
  - intros Hnot. destruct Hrange as [[Hlt|Heq] _]; [exact Hlt|].
    symmetry in Heq. apply Hminus in Heq. destruct Heq as [k Hk'].
    now elim (Hnot k).
  - unfold _normalize_angle. now rewrite Hr'.
Qed.

(** The input [5]: one subtraction, and the loops return [5 - 2 PI]. *)
Lemma normalize_angle_result_in_closed_range_at_5 :
  normalize_angle_fuel 2 5 = Some (5 - 2 * PI) /\
  - PI <= 5 - 2 * PI <= PI /\
  _normalize_angle 5 = 5 - 2 * PI.
Proof.
  assert (H : normalize_angle_fuel 2 5 = Some (5 - 2 * PI)).
  { pose proof PI_4 as Hhi. pose proof PI2_3_2 as Hlo.
    unfold normalize_angle_fuel. cbn [wrap_down].
    destruct (Rgt_dec 5 PI) as [_|E]; [|lra].
    destruct (Rgt_dec (5 - 2 * PI) PI) as [E|_]; [lra|].
    cbn [wrap_up].
    destruct (Rlt_dec (5 - 2 * PI) (- PI)) as [E|_]; [lra|]. reflexivity. }
  split; [exact H|].
  destruct (normalize_angle_result_in_closed_range 2 5 (5 - 2 * PI) H)
    as (Hrange & _ & _ & _ & _ & Hn).
  split; [exact Hrange | exact Hn].
Defined.

(** C7, counterexample.  The input [-PI] is returned as it is, after one test
    of each loop: the second loop tests [angle < -PI], so the result is not
    in the half-open interval [(-PI, PI]]. *)
Lemma normalize_angle_returns_minus_pi :
  normalize_angle_fuel 1 (- PI) = Some (- PI) /\
  _normalize_angle (- PI) = - PI /\
  ~ (- PI < _normalize_angle (- PI) <= PI).
Proof.
  assert (H : _normalize_angle (- PI) = - PI).
  { apply normalize_angle_id. pose proof PI_RGT_0. lra. }
  split; [|split; [assumption|rewrite H; lra]].
  pose proof PI_RGT_0. unfold normalize_angle_fuel. cbn [wrap_down].
  destruct (Rgt_dec (- PI) PI) as [E|_]; [lra|]. cbn [wrap_up].
  destruct (Rlt_dec (- PI) (- PI)) as [E|_]; [lra|]. reflexivity.
Qed.

End NormalizeAngleClaims.

(** ** Configuration setters *)

Lemma set_mag_trust_clamps (s : ExtendedKalmanFilter.t) (f : R) :
  0 <= ExtendedKalmanFilter.mag_trust_factor
         (ExtendedKalmanFilter.set_mag_trust s f) <= 1 /\
  (f < 0 \/ ExtendedKalmanFilter.mag_trust_factor
              (ExtendedKalmanFilter.set_mag_trust s f) <= f) /\
  (1 < f \/ f <= ExtendedKalmanFilter.mag_trust_factor
                   (ExtendedKalmanFilter.set_mag_trust s f)).
Proof.
  simpl. unfold Rmax, Rmin.
  destruct (Rle_dec 1.0 f); destruct (Rle_dec 0.0 _); lra.
Qed.

Lemma set_beta_clamps (s : MadgwickQuaternion.t) (b : R) :
  0.01 <= MadgwickQuaternion.beta (MadgwickQuaternion.set_beta s b) <= 0.5 /\
  (b < 0.01 \/ MadgwickQuaternion.beta (MadgwickQuaternion.set_beta s b) <= b) /\
  (0.5 < b \/ b <= MadgwickQuaternion.beta (MadgwickQuaternion.set_beta s b)).
Proof.
  simpl. unfold Rmax, Rmin.
  destruct (Rle_dec 0.5 b); destruct (Rle_dec 0.01 _); lra.
Qed.

(** What [set_process_noise] writes: the level itself on the attitude block
    diagonal and a thousandth of it on the bias block diagonal, zero off the
    diagonal of either block, and nothing outside the two blocks. *)
Lemma set_process_noise_entries (s : ExtendedKalmanFilter.t) (level : R) (i j : nat) :
  (i < 6)%nat -> (j < 6)%nat ->
  ExtendedKalmanFilter.Q (ExtendedKalmanFilter.set_process_noise s level) i j =
  if (i <? 3)%nat && (j <? 3)%nat then (if (i =? j)%nat then level else 0)
  else if (3 <=? i)%nat && (3 <=? j)%nat
       then (if (i =? j)%nat then level * 0.001 else 0)
       else ExtendedKalmanFilter.Q s i j.
Proof.
  intros Hi Hj.
  unfold ExtendedKalmanFilter.set_process_noise, block_assign, in_block, mscale, eye.
  simpl.
  do 6 (destruct i as [|i]; [do 6 (destruct j as [|j]; [simpl; lra|]); lia|]); lia.
Qed.


(** C6, the failing input.  [set_process_noise] stores the level it is given:
    [5.0], above the documented range [0.001 .. 1.0], is written to the
    attitude block as [5.0] and to the bias block as [0.005], not as the clamped
    [1.0] and [0.001]. *)
Theorem set_process_noise_does_not_clamp (s : ExtendedKalmanFilter.t) :
  ExtendedKalmanFilter.Q (ExtendedKalmanFilter.set_process_noise s 5.0) 0%nat 0%nat = 5.0 /\
  ExtendedKalmanFilter.Q (ExtendedKalmanFilter.set_process_noise s 5.0) 3%nat 3%nat = 0.005 /\
  ~ (0.001 <= ExtendedKalmanFilter.Q
                (ExtendedKalmanFilter.set_process_noise s 5.0) 0%nat 0%nat <= 1.0).
Proof.
  rewrite !set_process_noise_entries by lia. simpl. lra.
Qed.

(** ** The compatibility wrapper [AttitudeCalculator] *)

Lemma clamp_order (lo hi b : R) :
  lo <= hi -> Rmax lo (Rmin hi b) = Rmin hi (Rmax lo b).
Proof.
  intros H. unfold Rmax, Rmin.
  destruct (Rle_dec hi b); destruct (Rle_dec lo b);
    repeat match goal with
           | |- context [Rle_dec ?x ?y] => destruct (Rle_dec x y)
           end; lra.
Qed.

(** C10.  [AttitudeCalculator(alpha)] is constructed without error, its gain
    is [min(0.3, max(0.033, 2 (1 - alpha)))], its sample period is the [0.1]
    that [update] takes as default [dt], and its three angle attributes start
    at zero; and [AttitudeCalculator.update] returns what
    [MadgwickQuaternion.update] returns on the same filter state, inputs and
    [dt], leaves the base filter as that call leaves it and stores the
    returned triple in [roll], [pitch], [yaw] (a non-finite outcome of the
    base call is the outcome of the wrapper too). *)
Theorem attitude_calculator_refines_madgwick
  (alpha : R) (c : AttitudeCalculator.t) (ax ay az gx gy gz dt : R) :
  (exists c0, AttitudeCalculator.init alpha = Some c0 /\
     MadgwickQuaternion.beta (AttitudeCalculator.base c0)
       = AttitudeCalculator.beta_of_alpha alpha /\
     MadgwickQuaternion.q (AttitudeCalculator.base c0) = (1.0, 0.0, 0.0, 0.0) /\
     MadgwickQuaternion.sample_period (AttitudeCalculator.base c0) = 0.1 /\
     (AttitudeCalculator.roll c0, AttitudeCalculator.pitch c0,
      AttitudeCalculator.yaw c0) = (0.0, 0.0, 0.0)) /\
  match MadgwickQuaternion.update (AttitudeCalculator.base c)
          ax ay az gx gy gz (Some dt) with
  | Some (b, (r, p, y)) =>
      AttitudeCalculator.update c ax ay az gx gy gz dt
      = Some (AttitudeCalculator.mk b r p y, (r, p, y))
  | None => AttitudeCalculator.update c ax ay az gx gy gz dt = None
  end.
Proof.
  split.
  - unfold AttitudeCalculator.init, MadgwickQuaternion.init.
    destruct (Req_dec_T 10.0 0) as [H|H]; [lra|].
    eexists. split; [reflexivity|]. simpl.
    split; [|split; [reflexivity|split; [lra|reflexivity]]].
    unfold AttitudeCalculator.beta_of_alpha.
    rewrite clamp_order by lra. f_equal. f_equal. lra.
  - unfold AttitudeCalculator.update.
    destruct (MadgwickQuaternion.update _ ax ay az gx gy gz (Some dt))
      as [[b [[r p] y]]|]; reflexivity.
Qed.

(** ** [ExtendedKalmanFilter.update_accel]: rejection and trust factor *)

(** C5.  With an acceleration of norm below [0.1], [update_accel] returns
    normally and the filter object is the one it was given: state vector,
    covariance and every other attribute unchanged. *)
Theorem update_accel_small_norm_is_noop
  (s : ExtendedKalmanFilter.t) (ax ay az : R) :
  sqrt (ax ^ 2 + ay ^ 2 + az ^ 2) < 0.1 ->
  ExtendedKalmanFilter.update_accel s ax ay az = Done s.
Proof.
  intros H. unfold ExtendedKalmanFilter.update_accel.
  destruct (Rlt_dec _ 0.1) as [_|Hn]; [reflexivity | contradiction].
Qed.

(** The zero acceleration is rejected on a freshly constructed filter. *)
Lemma update_accel_zero_is_noop :
  sqrt (0 ^ 2 + 0 ^ 2 + 0 ^ 2) < 0.1 /\
  ExtendedKalmanFilter.update_accel
    (ExtendedKalmanFilter.init 0.01 0.1 0.01 0.05) 0 0 0
  = Done (ExtendedKalmanFilter.init 0.01 0.1 0.01 0.05).
Proof.
  assert (H : sqrt (0 ^ 2 + 0 ^ 2 + 0 ^ 2) < 0.1).
  { replace (0 ^ 2 + 0 ^ 2 + 0 ^ 2) with 0 by ring. rewrite sqrt_0. lra. }
  split; [exact H|].
  apply (update_accel_small_norm_is_noop _ 0 0 0). exact H.
Defined.

Lemma accel_trust_cases (norm : R) :
  let d := Rabs (norm - 1) in
  (d > 0.5 -> ExtendedKalmanFilter.accel_trust norm = 0.3) /\
  (0.2 < d <= 0.5 -> ExtendedKalmanFilter.accel_trust norm = 0.7) /\
  (d <= 0.2 -> ExtendedKalmanFilter.accel_trust norm = 1.0).
Proof.
  intros d. unfold ExtendedKalmanFilter.accel_trust.
  replace (norm - 1.0) with (norm - 1) by lra. fold d.
  destruct (Rgt_dec d 0.5); destruct (Rgt_dec d 0.2); repeat split; intros; lra.
Qed.

Lemma update_accel_sets_trust (s : ExtendedKalmanFilter.t) (ax ay az : R) :
  0.1 <= sqrt (ax ^ 2 + ay ^ 2 + az ^ 2) ->
  ExtendedKalmanFilter.accel_trust_factor
    (after (ExtendedKalmanFilter.update_accel s ax ay az))
  = ExtendedKalmanFilter.accel_trust (sqrt (ax ^ 2 + ay ^ 2 + az ^ 2)).
Proof.
  intros H. unfold ExtendedKalmanFilter.update_accel.
  destruct (Rlt_dec _ 0.1) as [Hlt|_]; [lra|].
  match goal with |- context [inv_3x3 ?S] => destruct (inv_3x3 S) end;
    reflexivity.
Qed.

(** C4.  For an acceleration of norm at least [0.1], with [d = | |accel| - 1 |]:
    the trust factor left in the filter is [0.3] when [d > 0.5], [0.7] when
    [0.2 < d <= 0.5] and [1.0] when [d <= 0.2] (so norm 1.0 gives 1.0, norm 1.6
    gives 0.3 and norm 1.3 gives 0.7); the measurement covariance of the
    correction is [R_accel] times [1 / max(0.1, trust)]; and it is this matrix
    that is added to [H P H^T] to form the innovation covariance whose inverse
    enters the gain and the covariance update. *)
Theorem update_accel_trust_factor
  (s : ExtendedKalmanFilter.t) (ax ay az : R) :
  let norm := sqrt (ax ^ 2 + ay ^ 2 + az ^ 2) in
  let d := Rabs (norm - 1) in
  let s' := after (ExtendedKalmanFilter.update_accel s ax ay az) in
  let trust := ExtendedKalmanFilter.accel_trust_factor s' in
  let H := mset (mset zeros 0 0 1.0) 1 1 1.0 in
  let R := mscale (ExtendedKalmanFilter.R_accel s) (1.0 / Rmax 0.1 trust) in
  let S := madd (mmul 6 (mmul 6 H (ExtendedKalmanFilter.P s)) (mT H)) R in
  0.1 <= norm ->
  (d > 0.5 -> trust = 0.3) /\
  (0.2 < d <= 0.5 -> trust = 0.7) /\
  (d <= 0.2 -> trust = 1.0) /\
  (norm = 1.0 -> trust = 1.0) /\
  (norm = 1.6 -> trust = 0.3) /\
  (norm = 1.3 -> trust = 0.7) /\
  ExtendedKalmanFilter.accel_R s' = R /\
  match inv_3x3 S with
  | None =>
      ExtendedKalmanFilter.update_accel s ax ay az
      = LinAlgError (ExtendedKalmanFilter.with_accel_trust_factor s trust)
  | Some S_inv =>
      let K := mmul 3 (mmul 6 (ExtendedKalmanFilter.P s) (mT H)) S_inv in
      ExtendedKalmanFilter.P s'
      = mmul 6 (msub eye (mmul 3 K H)) (ExtendedKalmanFilter.P s)
  end.
Proof.
  intros norm d s' trust H R S Hnorm.
  assert (Ht : trust = ExtendedKalmanFilter.accel_trust norm)
    by (apply update_accel_sets_trust; exact Hnorm).
  destruct (accel_trust_cases norm) as (H1 & H2 & H3). fold d in H1, H2, H3.
  assert (Hd1 : norm = 1.0 -> d = 0)
    by (intros E; unfold d; rewrite E; replace (1.0 - 1) with 0 by lra; apply Rabs_R0).
  assert (Hd2 : norm = 1.6 -> d = 0.6)
    by (intros E; unfold d; rewrite E; rewrite Rabs_pos_eq; lra).
  assert (Hd3 : norm = 1.3 -> d = 0.3)
    by (intros E; unfold d; rewrite E; rewrite Rabs_pos_eq; lra).
  split; [intros; rewrite Ht; now apply H1|].
  split; [intros; rewrite Ht; now apply H2|].
  split; [intros; rewrite Ht; now apply H3|].
  split; [intros E; rewrite Ht; apply H3; rewrite (Hd1 E); lra|].
  split; [intros E; rewrite Ht; apply H1; rewrite (Hd2 E); lra|].
  split; [intros E; rewrite Ht; apply H2; rewrite (Hd3 E); lra|].
  subst R S. rewrite Ht. subst trust s'.
  unfold ExtendedKalmanFilter.update_accel. fold norm.
  destruct (Rlt_dec norm 0.1) as [Hlt|_]; [lra|].
  cbv zeta. fold H.
  unfold ExtendedKalmanFilter.accel_R.
  cbn [ExtendedKalmanFilter.with_accel_trust_factor ExtendedKalmanFilter.P
       ExtendedKalmanFilter.R_accel ExtendedKalmanFilter.accel_trust_factor].
  match goal with |- context [inv_3x3 ?S] => destruct (inv_3x3 S) end;
    split; reflexivity.
Qed.

Lemma sqrt_sum_sq_z (z : R) : 0 <= z -> sqrt (0 ^ 2 + 0 ^ 2 + z ^ 2) = z.
Proof.
  intros Hz. replace (0 ^ 2 + 0 ^ 2 + z ^ 2) with (z * z) by ring.
  now apply sqrt_square.
Qed.

(** The acceleration [(0, 0, 1.6)] on a freshly constructed filter: trust
    factor [0.3]. *)
Lemma update_accel_trust_factor_at_1_6 :
  0.1 <= sqrt (0 ^ 2 + 0 ^ 2 + 1.6 ^ 2) /\
  ExtendedKalmanFilter.accel_trust_factor
    (after (ExtendedKalmanFilter.update_accel
              (ExtendedKalmanFilter.init 0.01 0.1 0.01 0.05) 0 0 1.6)) = 0.3.
Proof.
  assert (Hs : sqrt (0 ^ 2 + 0 ^ 2 + 1.6 ^ 2) = 1.6) by (apply sqrt_sum_sq_z; lra).
  assert (Hn : 0.1 <= sqrt (0 ^ 2 + 0 ^ 2 + 1.6 ^ 2)) by (rewrite Hs; lra).
  split; [exact Hn|].
  apply (update_accel_trust_factor
           (ExtendedKalmanFilter.init 0.01 0.1 0.01 0.05) 0 0 1.6 Hn).
  exact Hs.
Defined.

(** ** Adaptive process noise *)

Section AdaptiveNoise.

Import AdaptiveEKFAttitudeEstimator.


Lemma predict_keeps_Q (k : ExtendedKalmanFilter.t) (gx gy gz dt : R) :
  ExtendedKalmanFilter.Q (ExtendedKalmanFilter.predict k gx gy gz dt)
  = ExtendedKalmanFilter.Q k.
Proof. reflexivity. Qed.

Lemma update_accel_keeps_Q (k : ExtendedKalmanFilter.t) (ax ay az : R) :
  ExtendedKalmanFilter.Q (after (ExtendedKalmanFilter.update_accel k ax ay az))
  = ExtendedKalmanFilter.Q k.
Proof.
  unfold ExtendedKalmanFilter.update_accel.
  destruct (Rlt_dec _ 0.1); [reflexivity|].
  match goal with |- context [inv_3x3 ?S] => destruct (inv_3x3 S) end;
    reflexivity.
Qed.

Lemma update_magnetometer_keeps_Q (k : ExtendedKalmanFilter.t) (angle : R) :
  ExtendedKalmanFilter.Q (after (ExtendedKalmanFilter.update_magnetometer k angle))
  = ExtendedKalmanFilter.Q k.
Proof.
  unfold ExtendedKalmanFilter.update_magnetometer.
  match goal with |- context [inv_1x1 ?S] => destruct (inv_1x1 S) end;
    reflexivity.
Qed.





End AdaptiveNoise.

(** ** The Madgwick filter: renormalization *)

Section MadgwickNorm.

Import MadgwickQuaternion.

Lemma store_normalized_zero (s : t) (count : nat) (a b c d : R) :
  store_normalized s count a b c d 0 = None.
Proof.
  unfold store_normalized, np_div.
  destruct (Req_dec_T 0 0) as [_|H]; [reflexivity | now elim H].
Qed.

Lemma store_normalized_nonzero (s : t) (count : nat) (a b c d n : R) :
  n <> 0 ->
  store_normalized s count a b c d n
  = Some (mk (beta s) (sample_freq s) (sample_period s)
             (a / n, b / n, c / n, d / n) count).
Proof.
  intros Hn. unfold store_normalized, np_div.
  destruct (Req_dec_T n 0) as [H|_]; [contradiction | reflexivity].
Qed.

Lemma sqrt_eq (x v : R) : 0 <= v -> x = v * v -> sqrt x = v.
Proof. intros Hv ->. now apply sqrt_square. Qed.

Lemma quaternion_eq (a b c d a' b' c' d' : R) :
  a = a' -> b = b' -> c = c' -> d = d' -> (a, b, c, d) = (a', b', c', d').
Proof. now intros -> -> -> ->. Qed.

(** C1, the failing input.  On the unit quaternion [(0, 1, 0, 0)] with
    [beta = 0.5], the call [update(0, 0, 1, 0, 0, 0, dt=2.0)] finds the
    normalized gradient [(0, 1, 0, 0)], steps to [q = (0, 0, 0, 0)], and
    divides the four components by the norm [0] with no guard: the stored
    quaternion is not finite. *)
Theorem update_divides_by_zero_norm :
  update (mk 0.5 10.0 0.1 (0.0, 1.0, 0.0, 0.0) 0)
         0.0 0.0 1.0 0.0 0.0 0.0 (Some 2.0) = None.
Proof.
  unfold update. cbv zeta. cbn [q beta update_count].
  rewrite (sqrt_eq _ 1) by lra.
  destruct (Req_dec_T 1 0) as [H|_]; [lra|].
  replace (gradient 0.0 1.0 0.0 0.0 (0.0 / 1) (0.0 / 1) (1.0 / 1))
    with (0, 8, 0, 0) by (unfold gradient; cbv zeta; apply quaternion_eq; lra).
  cbv iota beta.
  rewrite (sqrt_eq _ 8) by lra.
  destruct (Rgt_dec 8 0) as [_|H]; [|lra].
  match goal with
  | |- context [store_normalized _ _ _ _ _ _ (sqrt ?e)] =>
      replace e with 0 by (unfold radians; lra)
  end.
  now rewrite sqrt_0, store_normalized_zero.
Qed.

(** The normal path of [update], with its intermediate values named. *)
Lemma update_normal_path
  (s : t) (ax ay az gx gy gz dt q0 q1 q2 q3 n s0 s1 s2 s3 gn p0 p1 p2 p3 pn : R) :
  q s = (q0, q1, q2, q3) ->
  sqrt (ax * ax + ay * ay + az * az) = n -> n <> 0 ->
  gradient q0 q1 q2 q3 (ax / n) (ay / n) (az / n) = (s0, s1, s2, s3) ->
  sqrt (s0 * s0 + s1 * s1 + s2 * s2 + s3 * s3) = gn -> gn > 0 ->
  q0 + (0.5 * (- q1 * radians gx - q2 * radians gy - q3 * radians gz)
        - beta s * (s0 / gn)) * dt = p0 ->
  q1 + (0.5 * (q0 * radians gx + q2 * radians gz - q3 * radians gy)
        - beta s * (s1 / gn)) * dt = p1 ->
  q2 + (0.5 * (q0 * radians gy - q1 * radians gz + q3 * radians gx)
        - beta s * (s2 / gn)) * dt = p2 ->
  q3 + (0.5 * (q0 * radians gz + q1 * radians gy - q2 * radians gx)
        - beta s * (s3 / gn)) * dt = p3 ->
  sqrt (p0 * p0 + p1 * p1 + p2 * p2 + p3 * p3) = pn ->
  update s ax ay az gx gy gz (Some dt)
  = match store_normalized s (S (update_count s)) p0 p1 p2 p3 pn with
    | Some s' => Some (s', get_euler_angles s')
    | None => None
    end.
Proof.
  intros Hq Hn Hn0 Hg Hgn Hgpos H0 H1 H2 H3 Hpn.
  unfold update. cbv zeta. rewrite Hn.
  destruct (Req_dec_T n 0) as [E|_]; [contradiction|].
  rewrite Hq, Hg. cbv iota beta. rewrite Hgn.
  destruct (Rgt_dec gn 0) as [_|E]; [|contradiction].
  rewrite H0, H1, H2, H3, Hpn. reflexivity.
Qed.

(** Whatever [update] stores has norm one. *)
Lemma store_normalized_unit (s s' : t) (count : nat) (a b c d : R) :
  store_normalized s count a b c d (sqrt (a * a + b * b + c * c + d * d)) = Some s' ->
  norm2 (q s') = 1.
Proof.
  set (n := sqrt (a * a + b * b + c * c + d * d)).
  destruct (Req_dec_T n 0) as [E|E].
  - rewrite E, store_normalized_zero. discriminate.
  - rewrite store_normalized_nonzero by assumption.
    intros H. injection H as <-. simpl.
    assert (Hnn : n * n = a * a + b * b + c * c + d * d).
    { apply sqrt_sqrt. nra. }
    transitivity ((a * a + b * b + c * c + d * d) / (n * n));
      [field; assumption|].
    rewrite <- Hnn. field. assumption.
Qed.

Lemma gyro_only_unit_norm (s s' : t) (gx gy gz dt : R) (e : euler) :
  _update_imu_gyro_only s gx gy gz dt = Some (s', e) -> norm2 (q s') = 1.
Proof.
  unfold _update_imu_gyro_only. destruct (q s) as [[[q0 q1] q2] q3]. cbv zeta.
  match goal with
  | |- context [store_normalized ?s ?c ?a ?b ?cc ?d ?n] =>
      destruct (store_normalized s c a b cc d n) as [s1|] eqn:E
  end; [|discriminate].
  intros H. injection H as <- _. eapply store_normalized_unit. exact E.
Qed.

Lemma update_unit_norm (s s' : t) (ax ay az gx gy gz : R) (dt : option R) (e : euler) :
  update s ax ay az gx gy gz dt = Some (s', e) -> norm2 (q s') = 1.
Proof.
  unfold update. cbv zeta.
  destruct (Req_dec_T _ 0) as [_|_]; [apply gyro_only_unit_norm|].
  destruct (q s) as [[[q0 q1] q2] q3].
  destruct (gradient _ _ _ _ _ _ _) as [[[s0 s1] s2] s3].
  destruct (Rgt_dec _ 0) as [_|_];
    match goal with
    | |- context [store_normalized ?s ?c ?a ?b ?cc ?d ?n] =>
        destruct (store_normalized s c a b cc d n) as [s1'|] eqn:E
    end; try discriminate;
    intros H; injection H as <- _; eapply store_normalized_unit; exact E.
Qed.

(** The gyro-only path of [update], with its intermediate values named. *)
Lemma update_gyro_only_path
  (s : t) (ax ay az gx gy gz dt q0 q1 q2 q3 p0 p1 p2 p3 pn : R) :
  q s = (q0, q1, q2, q3) ->
  sqrt (ax * ax + ay * ay + az * az) = 0 ->
  q0 + 0.5 * (- q1 * radians gx - q2 * radians gy - q3 * radians gz) * dt = p0 ->
  q1 + 0.5 * (q0 * radians gx + q2 * radians gz - q3 * radians gy) * dt = p1 ->
  q2 + 0.5 * (q0 * radians gy - q1 * radians gz + q3 * radians gx) * dt = p2 ->
  q3 + 0.5 * (q0 * radians gz + q1 * radians gy - q2 * radians gx) * dt = p3 ->
  sqrt (p0 * p0 + p1 * p1 + p2 * p2 + p3 * p3) = pn ->
  update s ax ay az gx gy gz (Some dt)
  = match store_normalized s (update_count s) p0 p1 p2 p3 pn with
    | Some s' => Some (s', get_euler_angles s')
    | None => None
    end.
Proof.
  intros Hq Hn H0 H1 H2 H3 Hpn.
  unfold update. cbv zeta. rewrite Hn.
  destruct (Req_dec_T 0 0) as [_|E]; [|now elim E].
  unfold _update_imu_gyro_only. rewrite Hq. cbv zeta.
  rewrite H0, H1, H2, H3, Hpn. reflexivity.
Qed.

Lemma radians_360_over_pi : radians (360 / PI) = 2.
Proof. unfold radians. field. pose proof PI_RGT_0. lra. Qed.

Lemma radians_0 : radians 0 = 0.
Proof. unfold radians. lra. Qed.

(** The failing run, call by call.  In the reals the rate [360 / PI] degrees
    per second is [2] radians per second (the [float] nearest to it,
    [114.59155902616465], has [math.radians] equal to [2.0] exactly).
    First call, on the reset state, with a zero acceleration:
    [q = (1, 1, 0, 0) / sqrt 2]. *)
Lemma failing_run_first_call (b sp : R) :
  update (reset (mk b 10.0 sp (1.0, 0.0, 0.0, 0.0) 0))
         0 0 0 (360 / PI) 0 0 (Some 1)
  = Some (mk b 10.0 sp (/ sqrt 2, / sqrt 2, 0, 0) 0,
          get_euler_angles (mk b 10.0 sp (/ sqrt 2, / sqrt 2, 0, 0) 0)).
Proof.
  assert (Hp : 0 < sqrt 2) by (apply sqrt_lt_R0; lra).
  rewrite (update_gyro_only_path _ 0 0 0 (360 / PI) 0 0 1
             1.0 0.0 0.0 0.0 1 1 0 0 (sqrt 2));
    try (rewrite ?radians_360_over_pi, ?radians_0; lra).
  - rewrite store_normalized_nonzero by lra. cbn [beta sample_freq sample_period reset].
    replace (1 / sqrt 2) with (/ sqrt 2) by lra.
    replace (0 / sqrt 2) with 0 by lra. reflexivity.
  - reflexivity.
  - apply sqrt_eq; lra.
  - f_equal. lra.
Qed.

(** Second call, same inputs: [q = (0, 1, 0, 0)]. *)
Lemma failing_run_second_call (b sp : R) :
  update (mk b 10.0 sp (/ sqrt 2, / sqrt 2, 0, 0) 0)
         0 0 0 (360 / PI) 0 0 (Some 1)
  = Some (mk b 10.0 sp (0, 1, 0, 0) 0,
          get_euler_angles (mk b 10.0 sp (0, 1, 0, 0) 0)).
Proof.
  assert (Hp : 0 < / sqrt 2) by (apply Rinv_0_lt_compat, sqrt_lt_R0; lra).
  rewrite (update_gyro_only_path _ 0 0 0 (360 / PI) 0 0 1
             (/ sqrt 2) (/ sqrt 2) 0 0 0 (2 * / sqrt 2) 0 0 (2 * / sqrt 2));
    try (rewrite ?radians_360_over_pi, ?radians_0; lra).
  - rewrite store_normalized_nonzero by lra. cbn [beta sample_freq sample_period].
    assert (Hs : sqrt 2 <> 0)
      by (pose proof (sqrt_lt_R0 2 ltac:(lra)); lra).
    replace (0 / (2 * / sqrt 2)) with 0 by (unfold Rdiv; ring).
    replace (2 * / sqrt 2 / (2 * / sqrt 2)) with 1 by (field; exact Hs).
    reflexivity.
  - reflexivity.
  - apply sqrt_eq; lra.
  - apply sqrt_eq; lra.
Qed.

(** Third call, [update(0, 0, 1, 0, 0, 0, dt=2.0)] with [beta = 0.5]: the
    normalized gradient is [q] itself, the step leaves the zero quaternion and
    the renormalization divides by its norm. *)
Lemma failing_run_third_call (sp : R) (count : nat) :
  update (mk 0.5 10.0 sp (0, 1, 0, 0) count) 0 0 1 0 0 0 (Some 2.0) = None.
Proof.
  rewrite (update_normal_path _ 0 0 1 0 0 0 2.0
             0 1 0 0 1 0 8 0 0 8 0 0 0 0 0);
    try (cbn [beta]; rewrite ?radians_0; lra).
  - now rewrite store_normalized_zero.
  - reflexivity.
  - apply sqrt_eq; lra.
  - unfold gradient; cbv zeta; apply quaternion_eq; lra.
  - apply sqrt_eq; lra.
  - apply sqrt_eq; lra.
Qed.

(** C3, the failing run.  A filter built with [beta = 0.5] and reset, then
    fed two gyro-only calls [update(0, 0, 0, 360/PI, 0, 0, dt=1.0)] and the
    call [update(0, 0, 1, 0, 0, 0, dt=2.0)]: after the first two calls the
    quaternion has norm one (it is [(1, 1, 0, 0) / sqrt 2], then
    [(0, 1, 0, 0)]); the third divides the zero quaternion by its zero norm,
    so the stored quaternion is not finite and its norm is not within [1e-6]
    of one. *)
Theorem madgwick_run_from_reset_loses_unit_norm :
  exists s0 s1 s2 e1 e2,
    init 0.5 10.0 = Some s0 /\
    q (reset s0) = (1.0, 0.0, 0.0, 0.0) /\
    update (reset s0) 0 0 0 (360 / PI) 0 0 (Some 1) = Some (s1, e1) /\
    norm2 (q s1) = 1 /\
    update s1 0 0 0 (360 / PI) 0 0 (Some 1) = Some (s2, e2) /\
    q s2 = (0, 1, 0, 0) /\
    update s2 0 0 1 0 0 0 (Some 2.0) = None /\
    run (reset s0) [(0, 0, 0, 360 / PI, 0, 0, Some 1);
                    (0, 0, 0, 360 / PI, 0, 0, Some 1);
                    (0, 0, 1, 0, 0, 0, Some 2.0)]
    = None.
Proof.
  unfold init. destruct (Req_dec_T 10.0 0) as [H|_]; [lra|].
  do 5 eexists.
  split; [reflexivity|]. split; [reflexivity|].
  split; [apply failing_run_first_call|].
  split; [eapply update_unit_norm; apply failing_run_first_call|].
  split; [apply failing_run_second_call|].
  split; [reflexivity|].
  split; [apply failing_run_third_call|].
  cbn [run].
  rewrite failing_run_first_call, failing_run_second_call, failing_run_third_call.
  reflexivity.
Qed.

End MadgwickNorm.

(** ** Euler angles and quaternions: the round trip *)





Lemma sin_cos_sq (x : R) : sin x * sin x + cos x * cos x = 1.
Proof. exact (sin2_cos2 x). Qed.



(** ** Finite sums, vectors and matrices *)

Lemma sum_n_ext (n : nat) (f g : nat -> R) :
  (forall i, (i < n)%nat -> f i = g i) -> sum_n n f = sum_n n g.
Proof.
  induction n as [|n IH]; intros H; simpl; [reflexivity|].
  rewrite IH by (intros; apply H; lia). rewrite H by lia. reflexivity.
Qed.

Lemma sum_n_plus (n : nat) (f g : nat -> R) :
  sum_n n (fun i => f i + g i) = sum_n n f + sum_n n g.
Proof. induction n as [|n IH]; simpl; [|rewrite IH]; ring. Qed.

Lemma sum_n_minus (n : nat) (f g : nat -> R) :
  sum_n n (fun i => f i - g i) = sum_n n f - sum_n n g.
Proof. induction n as [|n IH]; simpl; [|rewrite IH]; ring. Qed.

Lemma sum_n_scal_l (n : nat) (c : R) (f : nat -> R) :
  sum_n n (fun i => c * f i) = c * sum_n n f.
Proof. induction n as [|n IH]; simpl; [|rewrite IH]; ring. Qed.

Lemma sum_n_scal_r (n : nat) (c : R) (f : nat -> R) :
  sum_n n (fun i => f i * c) = sum_n n f * c.
Proof. induction n as [|n IH]; simpl; [|rewrite IH]; ring. Qed.

Lemma sum_n_zero (n : nat) : sum_n n (fun _ => 0) = 0.
Proof. induction n as [|n IH]; simpl; [|rewrite IH]; ring. Qed.

Lemma sum_n_swap (n m : nat) (f : nat -> nat -> R) :
  sum_n n (fun i => sum_n m (fun j => f i j))
  = sum_n m (fun j => sum_n n (fun i => f i j)).
Proof.
  induction n as [|n IH]; simpl.
  - now rewrite sum_n_zero.
  - rewrite sum_n_plus, IH. reflexivity.
Qed.

(** Summing against a row of the identity picks one term. *)
Lemma sum_n_eye_l (n i : nat) (f : nat -> R) :
  (i < n)%nat -> sum_n n (fun k => eye i k * f k) = f i.
Proof.
  unfold eye. induction n as [|n IH]; intros Hi; [lia|]. simpl.
  destruct (Nat.eq_dec i n) as [->|Hne].
  - rewrite Nat.eqb_refl.
    rewrite (sum_n_ext n _ (fun _ => 0)); [rewrite sum_n_zero; ring|].
    intros k Hk. destruct (Nat.eqb_spec n k); [lia|ring].
  - rewrite IH by lia. destruct (Nat.eqb_spec i n); [contradiction|ring].
Qed.

Lemma sum_n_eye_r (n i : nat) (f : nat -> R) :
  (i < n)%nat -> sum_n n (fun k => f k * eye i k) = f i.
Proof.
  intros Hi. rewrite <- (sum_n_eye_l n i f Hi).
  apply sum_n_ext. intros; ring.
Qed.

Lemma dot_comm (n : nat) (u v : vector) : dot n u v = dot n v u.
Proof. apply sum_n_ext. intros; ring. Qed.

Lemma dot_ext (n : nat) (u u' v v' : vector) :
  (forall i, (i < n)%nat -> u i = u' i) ->
  (forall i, (i < n)%nat -> v i = v' i) ->
  dot n u v = dot n u' v'.
Proof.
  intros Hu Hv. apply sum_n_ext. intros i Hi. now rewrite Hu, Hv.
Qed.

Lemma dot_minus_r (n : nat) (u v w : vector) :
  dot n u (fun i => v i - w i) = dot n u v - dot n u w.
Proof.
  unfold dot. rewrite <- sum_n_minus. apply sum_n_ext. intros; ring.
Qed.

Lemma dot_minus_l (n : nat) (u v w : vector) :
  dot n (fun i => u i - v i) w = dot n u w - dot n v w.
Proof.
  unfold dot. rewrite <- sum_n_minus. apply sum_n_ext. intros; ring.
Qed.

Lemma dot_plus_r (n : nat) (u v w : vector) :
  dot n u (fun i => v i + w i) = dot n u v + dot n u w.
Proof.
  unfold dot. rewrite <- sum_n_plus. apply sum_n_ext. intros; ring.
Qed.

Lemma mv_ext (k : nat) (A A' : matrix) (x x' : vector) (i : nat) :
  (forall l, (l < k)%nat -> A i l = A' i l) ->
  (forall l, (l < k)%nat -> x l = x' l) ->
  mv k A x i = mv k A' x' i.
Proof.
  intros HA Hx. apply sum_n_ext. intros l Hl. now rewrite HA, Hx.
Qed.

Lemma mv_minus (k : nat) (A : matrix) (x y : vector) (i : nat) :
  mv k A (fun l => x l - y l) i = mv k A x i - mv k A y i.
Proof.
  unfold mv. rewrite <- sum_n_minus. apply sum_n_ext. intros; ring.
Qed.

Lemma mv_madd (k : nat) (A B : matrix) (x : vector) (i : nat) :
  mv k (madd A B) x i = mv k A x i + mv k B x i.
Proof.
  unfold mv, madd. rewrite <- sum_n_plus. apply sum_n_ext. intros; ring.
Qed.

Lemma mv_msub (k : nat) (A B : matrix) (x : vector) (i : nat) :
  mv k (msub A B) x i = mv k A x i - mv k B x i.
Proof.
  unfold mv, msub. rewrite <- sum_n_minus. apply sum_n_ext. intros; ring.
Qed.

Lemma mv_eye (n : nat) (x : vector) (i : nat) :
  (i < n)%nat -> mv n eye x i = x i.
Proof. intros Hi. unfold mv. now apply sum_n_eye_l. Qed.

(** [(A @ B) @ x = A @ (B @ x)], for [A] with [k] columns and [B] with [n]. *)
Lemma mv_mmul (k n : nat) (A B : matrix) (x : vector) (i : nat) :
  mv n (mmul k A B) x i = mv k A (mv n B x) i.
Proof.
  unfold mv, mmul.
  rewrite (sum_n_ext n _ (fun j => sum_n k (fun l => A i l * B l j * x j)))
    by (intros; rewrite <- sum_n_scal_r; reflexivity).
  rewrite sum_n_swap. apply sum_n_ext. intros l _.
  rewrite <- sum_n_scal_l. apply sum_n_ext. intros; ring.
Qed.

(** [x . (A @ y) = (A^T @ x) . y], for [A] of shape [n x m]. *)
Lemma dot_adjoint (n m : nat) (A : matrix) (x y : vector) :
  dot n x (mv m A y) = dot m (mv n (mT A) x) y.
Proof.
  unfold dot, mv, mT.
  rewrite (sum_n_ext n _ (fun i => sum_n m (fun l => x i * A i l * y l)))
    by (intros; rewrite <- sum_n_scal_l; apply sum_n_ext; intros; ring).
  rewrite sum_n_swap. apply sum_n_ext. intros l _.
  rewrite <- sum_n_scal_r. apply sum_n_ext. intros; ring.
Qed.

Lemma dot_adjoint_T (n m : nat) (A : matrix) (x y : vector) :
  dot n x (mv m (mT A) y) = dot m (mv n A x) y.
Proof. now rewrite dot_adjoint. Qed.

(** For a symmetric matrix the bilinear form is symmetric. *)
Lemma dot_mv_symmetric (n : nat) (A : matrix) (x y : vector) :
  symmetric n A -> dot n x (mv n A y) = dot n y (mv n A x).
Proof.
  intros HA. rewrite dot_adjoint, dot_comm.
  apply dot_ext; [reflexivity|].
  intros i Hi. apply mv_ext; [|reflexivity].
  intros l Hl. unfold mT. now apply HA.
Qed.

(** A matrix whose bilinear form is symmetric is symmetric. *)
Lemma symmetric_of_bilinear (n : nat) (A : matrix) :
  (forall x y, dot n x (mv n A y) = dot n y (mv n A x)) -> symmetric n A.
Proof.
  intros H i j Hi Hj.
  assert (E : forall a b, (a < n)%nat -> (b < n)%nat ->
                dot n (eye a) (mv n A (eye b)) = A a b).
  { intros a b Ha Hb. unfold dot. rewrite sum_n_eye_l by assumption.
    unfold mv. now rewrite sum_n_eye_r. }
  rewrite <- (E i j Hi Hj), <- (E j i Hj Hi). apply H.
Qed.

Lemma quad_madd (n : nat) (A B : matrix) (x : vector) :
  quad n (madd A B) x = quad n A x + quad n B x.
Proof.
  unfold quad. rewrite <- dot_plus_r. apply dot_ext; [reflexivity|].
  intros i _. apply mv_madd.
Qed.

(** [x^T (A P A^T) x = (A^T x)^T P (A^T x)], for [A] of shape [m x n]. *)
Lemma bilinear_congruence (n m : nat) (A P : matrix) (x y : vector) :
  dot m x (mv m (mmul n (mmul n A P) (mT A)) y)
  = dot n (mv m (mT A) x) (mv n P (mv m (mT A) y)).
Proof.
  rewrite <- dot_adjoint. apply dot_ext; [reflexivity|].
  intros i _. rewrite mv_mmul. apply mv_mmul.
Qed.

Lemma congruence_symmetric (n m : nat) (A P : matrix) :
  symmetric n P -> symmetric m (mmul n (mmul n A P) (mT A)).
Proof.
  intros HP. apply symmetric_of_bilinear. intros x y.
  rewrite !bilinear_congruence. now apply dot_mv_symmetric.
Qed.

Lemma congruence_psd (n m : nat) (A P : matrix) :
  psd n P -> psd m (mmul n (mmul n A P) (mT A)).
Proof.
  intros HP x. unfold quad. rewrite bilinear_congruence. apply HP.
Qed.

Lemma madd_symmetric (n : nat) (A B : matrix) :
  symmetric n A -> symmetric n B -> symmetric n (madd A B).
Proof. intros HA HB i j Hi Hj. unfold madd. now rewrite HA, HB. Qed.

Lemma madd_psd (n : nat) (A B : matrix) :
  psd n A -> psd n B -> psd n (madd A B).
Proof.
  intros HA HB x. rewrite quad_madd. pose proof (HA x). pose proof (HB x). lra.
Qed.

(** ** The covariance update [P <- (I - K H) P] *)

Section KalmanCorrection.

Variables (n m : nat) (P H R S_inv : matrix).

Let S : matrix := madd (mmul n (mmul n H P) (mT H)) R.
Let K : matrix := mmul m (mmul n P (mT H)) S_inv.
Let P' : matrix := mmul n (msub eye (mmul m K H)) P.

Hypothesis P_symmetric : symmetric n P.
Hypothesis S_inv_right : forall i j, (i < m)%nat -> (j < m)%nat ->
                                     mmul m S S_inv i j = eye i j.

(** The innovation-side vectors for a direction [x]: [g = H P x],
    [y = S^-1 g] and [v = H^T y]. *)
Let g (x : vector) : vector := mv n H (mv n P x).
Let y (x : vector) : vector := mv m S_inv (g x).
Let v (x : vector) : vector := mv m (mT H) (y x).

Lemma correction_apply (x : vector) (i : nat) :
  (i < n)%nat -> mv n P' x i = mv n P x i - mv n P (v x) i.
Proof.
  intros Hi. unfold P'. rewrite mv_mmul, mv_msub, mv_eye by assumption.
  f_equal. unfold K. rewrite !mv_mmul. reflexivity.
Qed.

Lemma innovation_solves (x : vector) (a : nat) :
  (a < m)%nat -> mv m S (y x) a = g x a.
Proof.
  intros Ha. unfold y. rewrite <- mv_mmul.
  rewrite (mv_ext m _ eye (g x) (g x) a); [now apply mv_eye| |reflexivity].
  intros l Hl. now apply S_inv_right.
Qed.

Lemma cross_term (x z : vector) :
  dot n z (mv n P (v x)) = dot m (g z) (y x).
Proof.
  rewrite dot_mv_symmetric by assumption.
  rewrite dot_comm. unfold v. rewrite dot_adjoint_T. reflexivity.
Qed.

Lemma correction_bilinear (x z : vector) :
  dot n z (mv n P' x) = dot n z (mv n P x) - dot m (g z) (y x).
Proof.
  rewrite <- cross_term, <- dot_minus_r.
  apply dot_ext; [reflexivity|]. intros i Hi. now apply correction_apply.
Qed.

Lemma correction_symmetric :
  symmetric m S_inv -> symmetric n P'.
Proof.
  intros HS. apply symmetric_of_bilinear. intros x z.
  rewrite !correction_bilinear.
  rewrite (dot_mv_symmetric n P x z) by assumption.
  f_equal. unfold y. now apply dot_mv_symmetric.
Qed.

(** The Joseph-form identity
    [x^T P' x = (x - v)^T P (x - v) + y^T R y]. *)
Lemma correction_quad (x : vector) :
  quad n P' x = quad n P (fun i => x i - v x i) + quad m R (y x).
Proof.
  assert (HR : quad m R (y x) = dot m (y x) (g x) - dot n (v x) (mv n P (v x))).
  { unfold quad.
    rewrite (dot_ext m (y x) (y x) (mv m R (y x))
               (fun a => g x a - mv n (mmul n H P) (v x) a));
      [|reflexivity|].
    - rewrite dot_minus_r. f_equal.
      rewrite (dot_ext m (y x) (y x) _ (mv n H (mv n P (v x))));
        [|reflexivity|intros; apply mv_mmul].
      transitivity (dot n (mv n P (v x)) (mv m (mT H) (y x)));
        [rewrite dot_adjoint_T; apply dot_comm | rewrite dot_comm; reflexivity].
    - intros a Ha. rewrite <- (innovation_solves x a Ha).
      unfold S. rewrite mv_madd, mv_mmul. fold (v x). ring. }
  rewrite HR. unfold quad at 1. rewrite correction_bilinear.
  unfold quad.
  rewrite (dot_ext n (fun i => x i - v x i) (fun i => x i - v x i)
             (mv n P (fun i => x i - v x i))
             (fun i => mv n P x i - mv n P (v x) i));
    [|reflexivity|intros; apply mv_minus].
  rewrite dot_minus_r, !dot_minus_l.
  rewrite (cross_term x x).
  rewrite (dot_mv_symmetric n P (v x) x) by assumption.
  rewrite (cross_term x x).
  rewrite (dot_comm m (y x) (g x)). ring.
Qed.

Lemma correction_psd :
  psd n P -> psd m R -> psd n P'.
Proof.
  intros HP HR x. rewrite correction_quad.
  pose proof (HP (fun i => x i - v x i)). pose proof (HR (y x)). lra.
Qed.

End KalmanCorrection.

(** ** Inverses of the innovation covariance *)

Lemma inv_3x3_right (A Ai : matrix) :
  inv_3x3 A = Some Ai ->
  forall i j, (i < 3)%nat -> (j < 3)%nat -> mmul 3 A Ai i j = eye i j.
Proof.
  unfold inv_3x3. destruct (Req_dec_T (det3 A) 0) as [|Hd]; [discriminate|].
  intros E i j Hi Hj. injection E as <-.
  unfold mmul, eye, adj3. cbn [sum_n].
  do 3 (destruct i as [|i]; [do 3 (destruct j as [|j];
        [cbn; unfold det3 in *; field; exact Hd|]); lia|]); lia.
Qed.

Lemma inv_3x3_symmetric (A Ai : matrix) :
  symmetric 3 A -> inv_3x3 A = Some Ai -> symmetric 3 Ai.
Proof.
  unfold inv_3x3. destruct (Req_dec_T (det3 A) 0) as [|Hd]; [discriminate|].
  intros HA E i j Hi Hj. injection E as <-.
  assert (H01 : A 0%nat 1%nat = A 1%nat 0%nat) by (apply HA; lia).
  assert (H02 : A 0%nat 2%nat = A 2%nat 0%nat) by (apply HA; lia).
  assert (H12 : A 1%nat 2%nat = A 2%nat 1%nat) by (apply HA; lia).
  unfold adj3. f_equal.
  do 3 (destruct i as [|i]; [do 3 (destruct j as [|j];
        [cbn; rewrite ?H01, ?H02, ?H12; ring|]); lia|]); lia.
Qed.

Lemma inv_1x1_right (A Ai : matrix) :
  inv_1x1 A = Some Ai ->
  forall i j, (i < 1)%nat -> (j < 1)%nat -> mmul 1 A Ai i j = eye i j.
Proof.
  unfold inv_1x1. destruct (Req_dec_T (A 0%nat 0%nat) 0) as [|Hd]; [discriminate|].
  intros E i j Hi Hj. injection E as <-.
  replace i with 0%nat by lia. replace j with 0%nat by lia.
  unfold mmul, eye. cbn. field. exact Hd.
Qed.

Lemma inv_1x1_symmetric (A Ai : matrix) :
  inv_1x1 A = Some Ai -> symmetric 1 Ai.
Proof.
  intros _ i j Hi Hj. replace i with 0%nat by lia. now replace j with 0%nat by lia.
Qed.

(** ** Scaled and identity matrices *)

Lemma mscale_symmetric (n : nat) (A : matrix) (c : R) :
  symmetric n A -> symmetric n (mscale A c).
Proof. intros HA i j Hi Hj. unfold mscale. now rewrite HA. Qed.

Lemma quad_mscale (n : nat) (A : matrix) (c : R) (x : vector) :
  quad n (mscale A c) x = quad n A x * c.
Proof.
  unfold quad, dot, mv, mscale. rewrite <- sum_n_scal_r.
  apply sum_n_ext. intros i _. rewrite Rmult_assoc. f_equal.
  rewrite <- sum_n_scal_r. apply sum_n_ext. intros; ring.
Qed.

Lemma mscale_psd (n : nat) (A : matrix) (c : R) :
  psd n A -> 0 <= c -> psd n (mscale A c).
Proof.
  intros HA Hc x. rewrite quad_mscale. pose proof (HA x). nra.
Qed.

Lemma sum_n_nonneg (n : nat) (f : nat -> R) :
  (forall i, (i < n)%nat -> 0 <= f i) -> 0 <= sum_n n f.
Proof.
  induction n as [|n IH]; intros H; simpl; [lra|].
  pose proof (IH (fun i Hi => H i (Nat.lt_lt_succ_r _ _ Hi))).
  pose proof (H n (Nat.lt_succ_diag_r n)). lra.
Qed.

Lemma eye_symmetric (n : nat) : symmetric n eye.
Proof. intros i j _ _. unfold eye. now rewrite Nat.eqb_sym. Qed.

Lemma eye_psd (n : nat) : psd n eye.
Proof.
  intros x. unfold quad, dot. apply sum_n_nonneg. intros i Hi.
  rewrite mv_eye by assumption. nra.
Qed.

Lemma quad_unit (n : nat) (A : matrix) (i : nat) :
  (i < n)%nat -> quad n A (eye i) = A i i.
Proof.
  intros Hi. unfold quad, dot. rewrite sum_n_eye_l by assumption.
  unfold mv. now rewrite sum_n_eye_r.
Qed.

Lemma trust_scale_pos (t : R) : 0 < 1.0 / Rmax 0.1 t.
Proof.
  assert (0.1 <= Rmax 0.1 t) by apply Rmax_l.
  apply Rdiv_lt_0_compat; lra.
Qed.

(** ** The EKF covariance stays symmetric positive semi-definite *)

Section CovarianceInvariant.

Import ExtendedKalmanFilter.

Lemma predict_covariances_ok (s : t) (gx gy gz dt : R) :
  covariances_ok s -> covariances_ok (predict s gx gy gz dt).
Proof.
  intros (HPs & HPp & HQs & HQp & HR).
  unfold covariances_ok, predict. cbv zeta.
  cbn [P Q R_accel R_mag with_P with_state].
  split; [|split; [|split; [|split]]]; try assumption.
  - apply madd_symmetric; [now apply congruence_symmetric | assumption].
  - apply madd_psd; [now apply congruence_psd | assumption].
Qed.

Lemma update_accel_covariances_ok (s : t) (ax ay az : R) :
  covariances_ok s -> covariances_ok (after (update_accel s ax ay az)).
Proof.
  intros Hok. unfold update_accel.
  destruct (Rlt_dec _ 0.1) as [_|_]; [exact Hok|]. cbv zeta.
  destruct Hok as (HPs & HPp & HQs & HQp & HRs & HRp & HM).
  match goal with
  | |- context [inv_3x3 ?S] => destruct (inv_3x3 S) as [S_inv|] eqn:E
  end; unfold covariances_ok;
    cbn [after P Q R_accel R_mag with_P with_state with_accel_trust_factor];
    [|repeat split; solve [assumption | apply HM]].
  cbn [P with_accel_trust_factor] in E.
  split; [|split; [|repeat split; solve [assumption | apply HM]]].
  - apply correction_symmetric; [assumption|].
    eapply inv_3x3_symmetric; [|exact E].
    apply madd_symmetric; [now apply congruence_symmetric|].
    now apply mscale_symmetric.
  - apply correction_psd with (R := accel_R (with_accel_trust_factor s
                                 (accel_trust (sqrt (ax ^ 2 + ay ^ 2 + az ^ 2)))));
      [assumption | now apply inv_3x3_right | assumption | ].
    apply mscale_psd; [assumption|]. left. apply trust_scale_pos.
Qed.

Lemma update_magnetometer_covariances_ok (s : t) (angle : R) :
  covariances_ok s -> covariances_ok (after (update_magnetometer s angle)).
Proof.
  intros (HPs & HPp & HQs & HQp & HRs & HRp & HMs & HMp).
  unfold update_magnetometer. cbv zeta.
  match goal with
  | |- context [inv_1x1 ?S] => destruct (inv_1x1 S) as [S_inv|] eqn:E
  end; unfold covariances_ok;
    cbn [after P Q R_accel R_mag with_P with_state];
    [|repeat split; assumption].
  split; [|split; [|repeat split; assumption]].
  - apply correction_symmetric; [assumption|].
    eapply inv_1x1_symmetric. exact E.
  - apply correction_psd with (R := mag_R s);
      [assumption | now apply inv_1x1_right | assumption | ].
    apply mscale_psd; [assumption|]. left. apply trust_scale_pos.
Qed.

(** C2 (as amended).  On a filter whose covariances [P], [Q], [R_accel] and
    [R_mag] are symmetric positive semi-definite, they still are after
    [predict], after [update_accel] and after [update_magnetometer]
    (whether the correction returns or raises: an exception leaves [P]
    untouched); in particular [P] stays symmetric positive semi-definite. *)
Theorem covariance_stays_symmetric_psd (s : t) :
  covariances_ok s ->
  (forall gx gy gz dt,
     covariances_ok (predict s gx gy gz dt) /\
     symmetric 6 (P (predict s gx gy gz dt)) /\
     psd 6 (P (predict s gx gy gz dt))) /\
  (forall ax ay az,
     covariances_ok (after (update_accel s ax ay az)) /\
     symmetric 6 (P (after (update_accel s ax ay az))) /\
     psd 6 (P (after (update_accel s ax ay az)))) /\
  (forall angle,
     covariances_ok (after (update_magnetometer s angle)) /\
     symmetric 6 (P (after (update_magnetometer s angle))) /\
     psd 6 (P (after (update_magnetometer s angle)))).
Proof.
  intros Hok. split; [|split].
  - intros gx gy gz dt.
    pose proof (predict_covariances_ok s gx gy gz dt Hok) as H.
    split; [exact H|]. destruct H as (H1 & H2 & _). now split.
  - intros ax ay az.
    pose proof (update_accel_covariances_ok s ax ay az Hok) as H.
    split; [exact H|]. destruct H as (H1 & H2 & _). now split.
  - intros angle.
    pose proof (update_magnetometer_covariances_ok s angle Hok) as H.
    split; [exact H|]. destruct H as (H1 & H2 & _). now split.
Qed.

End CovarianceInvariant.

Section CovarianceExamples.

Import ExtendedKalmanFilter.

Lemma init_Q_entries (pn an gn mn : R) (i j : nat) :
  (i < 6)%nat -> (j < 6)%nat ->
  Q (init pn an gn mn) i j
  = if (i =? j)%nat then (if (i <? 3)%nat then pn else pn * 0.001) else 0.
Proof.
  intros Hi Hj. unfold init. cbv zeta. cbn [Q].
  unfold block_scale, in_block, eye.
  do 6 (destruct i as [|i]; [do 6 (destruct j as [|j]; [cbn; lra|]); lia|]); lia.
Qed.

(** A filter constructed with a non-negative process noise has symmetric
    positive semi-definite covariances. *)
Lemma init_covariances_ok (pn an gn mn : R) :
  0 <= pn -> covariances_ok (init pn an gn mn).
Proof.
  intros Hpn. unfold covariances_ok.
  split; [|split; [|split; [|split; [|split; [|split; [|split]]]]]].
  - apply mscale_symmetric, eye_symmetric.
  - apply mscale_psd; [apply eye_psd | lra].
  - intros i j Hi Hj. rewrite !init_Q_entries by assumption.
    destruct (Nat.eqb_spec i j) as [->|Hne].
    + now rewrite Nat.eqb_refl.
    + destruct (Nat.eqb_spec j i); [congruence | reflexivity].
  - intros x. unfold quad, dot. apply sum_n_nonneg. intros i Hi.
    unfold mv.
    rewrite (sum_n_ext 6 _ (fun l => (if (i <? 3)%nat then pn else pn * 0.001)
                                     * (eye i l * x l))).
    + rewrite sum_n_scal_l, sum_n_eye_l by assumption.
      destruct (i <? 3)%nat; nra.
    + intros l Hl. rewrite init_Q_entries by assumption. unfold eye.
      destruct (i =? l)%nat; ring.
  - apply mscale_symmetric, eye_symmetric.
  - apply mscale_psd; [apply eye_psd | apply pow2_ge_0].
  - apply mscale_symmetric, eye_symmetric.
  - apply mscale_psd; [apply eye_psd | apply pow2_ge_0].
Qed.

(** The rows of the Jacobian that belong to the gyro biases are rows of the
    identity. *)
Lemma jacobian_bias_rows (s : t) (gx gy gz dt : R) (i j : nat) :
  (3 <= i)%nat -> _compute_state_jacobian s gx gy gz dt i j = eye i j.
Proof.
  intros Hi. unfold _compute_state_jacobian. cbv zeta. unfold mset.
  destruct i as [|[|[|i]]]; try lia. reflexivity.
Qed.

Lemma congruence_identity_rows (n : nat) (A P0 : matrix) (i j : nat) :
  (i < n)%nat -> (j < n)%nat ->
  (forall k, A i k = eye i k) -> (forall k, A j k = eye j k) ->
  mmul n (mmul n A P0) (mT A) i j = P0 i j.
Proof.
  intros Hi Hj Hri Hrj. unfold mmul, mT.
  rewrite (sum_n_ext n _ (fun l => P0 i l * eye j l)).
  - now apply (sum_n_eye_r n j (fun l => P0 i l)).
  - intros l Hl. rewrite Hrj. f_equal.
    rewrite (sum_n_ext n _ (fun k => eye i k * P0 k l))
      by (intros; now rewrite Hri).
    now apply (sum_n_eye_l n i (fun k => P0 k l)).
Qed.

(** [predict] adds the process noise to the bias block of [P]. *)
Lemma predict_bias_block (s : t) (gx gy gz dt : R) (i j : nat) :
  (3 <= i < 6)%nat -> (3 <= j < 6)%nat ->
  P (predict s gx gy gz dt) i j = P s i j + Q s i j.
Proof.
  intros Hi Hj. unfold predict. cbv zeta. cbn [P Q with_P with_state].
  unfold madd. f_equal.
  apply congruence_identity_rows; try lia;
    intros k; apply jacobian_bias_rows; lia.
Qed.

(** C2, counterexample.  A filter constructed with [process_noise = -2000]
    starts with [P] the identity, which is symmetric positive semi-definite;
    one [predict(0, 0, 0, 0.1)] leaves [P[5, 5] = 1 - 2 = -1], so [P] is not
    positive semi-definite any more. *)
Lemma predict_with_negative_process_noise :
  symmetric 6 (P (init (-2000) 0.1 0.01 0.05)) /\
  psd 6 (P (init (-2000) 0.1 0.01 0.05)) /\
  P (predict (init (-2000) 0.1 0.01 0.05) 0 0 0 0.1) 5%nat 5%nat = -1 /\
  ~ psd 6 (P (predict (init (-2000) 0.1 0.01 0.05) 0 0 0 0.1)).
Proof.
  assert (H55 : P (predict (init (-2000) 0.1 0.01 0.05) 0 0 0 0.1) 5%nat 5%nat = -1).
  { rewrite predict_bias_block by lia. rewrite init_Q_entries by lia.
    cbn. unfold mscale, eye. cbn. lra. }
  split; [apply mscale_symmetric, eye_symmetric|].
  split; [apply mscale_psd; [apply eye_psd | lra]|].
  split; [exact H55|].
  intros Hpsd. specialize (Hpsd (eye 5%nat)).
  rewrite quad_unit, H55 in Hpsd by lia. lra.
Qed.

(** The filter that [AdaptiveEKFAttitudeEstimator] constructs keeps [P]
    positive semi-definite through each of the three operations. *)
Lemma covariance_stays_symmetric_psd_default :
  covariances_ok (init 0.01 0.1 0.01 0.05) /\
  psd 6 (P (predict (init 0.01 0.1 0.01 0.05) 0 0 0 0.1)) /\
  psd 6 (P (after (update_accel (init 0.01 0.1 0.01 0.05) 0 0 1))) /\
  psd 6 (P (after (update_magnetometer (init 0.01 0.1 0.01 0.05) 45))).
Proof.
  assert (Hok : covariances_ok (init 0.01 0.1 0.01 0.05))
    by (apply init_covariances_ok; lra).
  destruct (covariance_stays_symmetric_psd _ Hok) as (Hp & Ha & Hm).
  split; [exact Hok|].
  split; [apply Hp|]. split; [apply Ha | apply Hm].
Defined.

End CovarianceExamples.

(** ** Reachable filters *)

Section ReachableFilters.

Import ExtendedKalmanFilter.

Lemma set_process_noise_covariances_ok (s : t) (level : R) :
  0 <= level -> Q_blocks_only s -> covariances_ok s ->
  Q_blocks_only (set_process_noise s level) /\
  covariances_ok (set_process_noise s level).
Proof.
  intros Hl Hb (HPs & HPp & _ & _ & HR).
  assert (HQ : forall i j, (i < 6)%nat -> (j < 6)%nat ->
             Q (set_process_noise s level) i j
             = (if (i <? 3)%nat then level else level * 0.001) * eye i j).
  { intros i j Hi Hj. rewrite set_process_noise_entries by assumption.
    unfold eye.
    destruct (Nat.ltb_spec i 3) as [Hi3|Hi3];
      destruct (Nat.ltb_spec j 3) as [Hj3|Hj3];
      destruct (Nat.leb_spec 3 i); destruct (Nat.leb_spec 3 j); try lia;
      cbn [andb]; destruct (Nat.eqb_spec i j); try lia; try ring;
      rewrite Hb by (try assumption; lia); ring. }
  split.
  - intros i j Hi Hj Hij. rewrite HQ by assumption. unfold eye.
    destruct (Nat.eqb_spec i j); [lia | ring].
  - unfold covariances_ok. split; [exact HPs|]. split; [exact HPp|].
    split; [|split; [|exact HR]].
    + intros i j Hi Hj. rewrite !HQ by assumption. unfold eye.
      destruct (Nat.eqb_spec i j) as [->|Hne].
      * now rewrite Nat.eqb_refl.
      * destruct (Nat.eqb_spec j i); [congruence | ring].
    + intros x. unfold quad, dot. apply sum_n_nonneg. intros i Hi.
      unfold mv.
      rewrite (sum_n_ext 6 _ (fun l => (if (i <? 3)%nat then level else level * 0.001)
                                       * (eye i l * x l)))
        by (intros l Hl'; rewrite HQ by assumption; ring).
      rewrite sum_n_scal_l, sum_n_eye_l by assumption.
      destruct (i <? 3)%nat; nra.
Qed.

Lemma init_Q_blocks_only (pn an gn mn : R) : Q_blocks_only (init pn an gn mn).
Proof.
  intros i j Hi Hj Hij. rewrite init_Q_entries by assumption.
  destruct (Nat.eqb_spec i j); [lia | reflexivity].
Qed.

Lemma reset_covariances_ok (s : t) :
  covariances_ok s -> covariances_ok (reset s).
Proof.
  intros (_ & _ & HQ). unfold covariances_ok, reset. cbn [P Q R_accel R_mag].
  split; [apply mscale_symmetric, eye_symmetric|].
  split; [apply mscale_psd; [apply eye_psd | lra] | exact HQ].
Qed.

Lemma apply_call_keeps_Q (s : t) (c : call) :
  match c with SetProcessNoise _ => True | _ => Q (apply_call s c) = Q s end.
Proof.
  destruct c; cbn [apply_call]; try reflexivity; try exact I.
  - apply update_accel_keeps_Q.
  - apply update_magnetometer_keeps_Q.
Qed.

(** Every filter constructed with a non-negative process noise, after any
    sequence of calls that never sets a negative one, has symmetric positive
    semi-definite covariances. *)
Lemma reachable_covariances_ok (pn an gn mn : R) (calls : list call) :
  0 <= pn -> Forall noise_nonnegative calls ->
  covariances_ok (apply_calls (init pn an gn mn) calls).
Proof.
  intros Hpn Hcalls.
  assert (H0 : Q_blocks_only (init pn an gn mn) /\ covariances_ok (init pn an gn mn))
    by (split; [apply init_Q_blocks_only | now apply init_covariances_ok]).
  unfold apply_calls. revert H0. generalize (init pn an gn mn) as s.
  induction Hcalls as [|c calls Hc _ IH]; intros s [Hb Hok]; [exact Hok|].
  cbn [fold_left]. apply IH.
  destruct c; cbn [apply_call noise_nonnegative] in *.
  - split; [exact Hb | now apply predict_covariances_ok].
  - split; [|now apply update_accel_covariances_ok].
    unfold Q_blocks_only. now rewrite update_accel_keeps_Q.
  - split; [|now apply update_magnetometer_covariances_ok].
    unfold Q_blocks_only. now rewrite update_magnetometer_keeps_Q.
  - split; [exact Hb | exact Hok].
  - now apply set_process_noise_covariances_ok.
  - split; [exact Hb | now apply reset_covariances_ok].
Qed.

End ReachableFilters.

(** ** The corrections complete: the innovation covariance is invertible *)

Lemma quad_two (n : nat) (A : matrix) (i j : nat) (a b : R) :
  (i < n)%nat -> (j < n)%nat ->
  quad n A (fun k => a * eye i k + b * eye j k)
  = a * a * A i i + a * b * A i j + b * a * A j i + b * b * A j j.
Proof.
  intros Hi Hj. unfold quad.
  rewrite (dot_ext n _ (fun k => a * eye i k + b * eye j k) _
             (fun l => a * A l i + b * A l j)); [|reflexivity|].
  - unfold dot.
    rewrite (sum_n_ext n _ (fun l => eye i l * (a * (a * A l i + b * A l j))
                                     + eye j l * (b * (a * A l i + b * A l j))))
      by (intros; ring).
    rewrite sum_n_plus.
    rewrite (sum_n_eye_l n i (fun l => a * (a * A l i + b * A l j))) by assumption.
    rewrite (sum_n_eye_l n j (fun l => b * (a * A l i + b * A l j))) by assumption.
    ring.
  - intros l Hl. unfold mv.
    rewrite (sum_n_ext n _ (fun k => (a * A l k) * eye i k + (b * A l k) * eye j k))
      by (intros; ring).
    rewrite sum_n_plus.
    rewrite (sum_n_eye_r n i (fun k => a * A l k)) by assumption.
    rewrite (sum_n_eye_r n j (fun k => b * A l k)) by assumption.
    reflexivity.
Qed.

Lemma psd_diagonal (n : nat) (A : matrix) (i : nat) :
  psd n A -> (i < n)%nat -> 0 <= A i i.
Proof. intros HA Hi. rewrite <- (quad_unit n A i Hi). apply HA. Qed.

(** The 2 x 2 minors of a symmetric positive semi-definite matrix are
    non-negative. *)
Lemma psd_minor (n : nat) (A : matrix) (i j : nat) :
  symmetric n A -> psd n A -> (i < n)%nat -> (j < n)%nat ->
  A i j * A i j <= A i i * A j j.
Proof.
  intros Hs Hp Hi Hj.
  pose proof (psd_diagonal n A i Hp Hi) as Hii.
  pose proof (psd_diagonal n A j Hp Hj) as Hjj.
  assert (Hji : A j i = A i j) by (apply Hs; assumption).
  pose proof (Hp (fun k => A i j * eye i k + - A i i * eye j k)) as H1.
  pose proof (Hp (fun k => (A j j + 1) * eye i k + - A i j * eye j k)) as H2.
  rewrite quad_two in H1, H2 by assumption. rewrite Hji in H1, H2.
  destruct (Rle_lt_or_eq_dec 0 (A i i) Hii) as [Hpos|Hzero].
  - assert (0 <= A i i * (A i i * A j j - A i j * A i j)) by nra.
    nra.
  - rewrite <- Hzero in *.
    assert (A i j * A i j * (A j j + 2) <= 0) by nra.
    nra.
Qed.

Section CorrectionsComplete.

Import ExtendedKalmanFilter.

Lemma accel_innovation_entries (P0 R0 : matrix) (i j : nat) :
  (i < 3)%nat -> (j < 3)%nat ->
  madd (mmul 6 (mmul 6 (mset (mset zeros 0 0 1.0) 1 1 1.0) P0)
                (mT (mset (mset zeros 0 0 1.0) 1 1 1.0))) R0 i j
  = (if (i <? 2)%nat && (j <? 2)%nat then P0 i j else 0) + R0 i j.
Proof.
  intros Hi Hj. unfold madd, mmul, mT, mset, zeros. cbn [sum_n].
  do 3 (destruct i as [|i]; [do 3 (destruct j as [|j]; [cbn; lra|]); lia|]); lia.
Qed.

Lemma mag_innovation_entry (P0 R0 : matrix) :
  madd (mmul 6 (mmul 6 (mset zeros 0 2 1.0) P0) (mT (mset zeros 0 2 1.0))) R0
       0%nat 0%nat
  = P0 2%nat 2%nat + R0 0%nat 0%nat.
Proof. unfold madd, mmul, mT, mset, zeros. cbn. lra. Qed.

(** With a positive accelerometer variance on the diagonal of [R_accel], the
    3 x 3 innovation covariance has a positive determinant, so
    [update_accel] returns normally. *)
Lemma update_accel_returns (s : t) (ax ay az r : R) :
  covariances_ok s -> 0 < r ->
  (forall i j, (i < 3)%nat -> (j < 3)%nat -> R_accel s i j = eye i j * r) ->
  exists s', update_accel s ax ay az = Done s'.
Proof.
  intros (HPs & HPp & _) Hr HR. unfold update_accel.
  destruct (Rlt_dec _ 0.1) as [_|_]; [now exists s|]. cbv zeta.
  match goal with
  | |- context [inv_3x3 ?S] => destruct (inv_3x3 S) as [S_inv|] eqn:E
  end; [eexists; reflexivity|].
  exfalso. unfold inv_3x3 in E.
  match type of E with
  | context [Req_dec_T ?d 0] => destruct (Req_dec_T d 0) as [Hd|_]
  end; [|discriminate].
  unfold det3 in Hd. rewrite !accel_innovation_entries in Hd by lia.
  cbn [Nat.ltb Nat.leb andb] in Hd.
  unfold accel_R, mscale in Hd.
  cbn [R_accel P with_accel_trust_factor accel_trust_factor] in Hd.
  rewrite !HR in Hd by lia. unfold eye in Hd. cbn [Nat.eqb] in Hd.
  pose proof (trust_scale_pos (accel_trust (sqrt (ax ^ 2 + ay ^ 2 + az ^ 2)))) as Hc.
  set (c := 1.0 / Rmax 0.1 (accel_trust (sqrt (ax ^ 2 + ay ^ 2 + az ^ 2)))) in *.
  pose proof (psd_diagonal 6 (P s) 0 HPp ltac:(lia)) as H00.
  pose proof (psd_diagonal 6 (P s) 1 HPp ltac:(lia)) as H11.
  pose proof (psd_minor 6 (P s) 0 1 HPs HPp ltac:(lia) ltac:(lia)) as Hm.
  assert (H10 : P s 1%nat 0%nat = P s 0%nat 1%nat) by (apply HPs; lia).
  rewrite H10 in Hd.
  assert (Hrc : 0 < r * c) by nra.
  set (rc := r * c) in *.
  assert (Hd' : rc * ((P s 0%nat 0%nat + rc) * (P s 1%nat 1%nat + rc)
                      - P s 0%nat 1%nat * P s 0%nat 1%nat) = 0)
    by (rewrite <- Hd; unfold rc; ring).
  assert (0 < (P s 0%nat 0%nat + rc) * (P s 1%nat 1%nat + rc)
              - P s 0%nat 1%nat * P s 0%nat 1%nat) by nra.
  nra.
Qed.

Lemma update_magnetometer_returns (s : t) (angle : R) :
  covariances_ok s -> 0 < R_mag s 0%nat 0%nat ->
  exists s', update_magnetometer s angle = Done s'.
Proof.
  intros (HPs & HPp & _) Hr. unfold update_magnetometer. cbv zeta.
  match goal with
  | |- context [inv_1x1 ?S] => destruct (inv_1x1 S) as [S_inv|] eqn:E
  end; [eexists; reflexivity|].
  exfalso. unfold inv_1x1 in E.
  match type of E with
  | context [Req_dec_T ?d 0] => destruct (Req_dec_T d 0) as [Hd|_]
  end; [|discriminate].
  rewrite mag_innovation_entry in Hd. unfold mag_R, mscale in Hd.
  pose proof (trust_scale_pos (mag_trust_factor s)) as Hc.
  pose proof (psd_diagonal 6 (P s) 2 HPp ltac:(lia)) as H22.
  nra.
Qed.

Lemma apply_calls_keeps_R (s : t) (calls : list call) :
  R_accel (apply_calls s calls) = R_accel s /\
  R_mag (apply_calls s calls) = R_mag s.
Proof.
  unfold apply_calls. revert s.
  induction calls as [|c calls IH]; intros s; [now split|].
  cbn [fold_left]. destruct (IH (apply_call s c)) as [Ha Hm].
  rewrite Ha, Hm. clear.
  destruct c; cbn [apply_call]; try (split; reflexivity).
  - unfold update_accel. destruct (Rlt_dec _ 0.1); [now split|]. cbv zeta.
    match goal with |- context [inv_3x3 ?S] => destruct (inv_3x3 S) end;
      split; reflexivity.
  - unfold update_magnetometer. cbv zeta.
    match goal with |- context [inv_1x1 ?S] => destruct (inv_1x1 S) end;
      split; reflexivity.
Qed.

(** On every filter constructed with a non-negative process noise and
    non-zero measurement noises, after any sequence of calls that never sets
    a negative process noise, both corrections return normally. *)
Lemma reachable_corrections_return
  (pn an gn mn : R) (calls : list call) (ax ay az angle : R) :
  0 <= pn -> an <> 0 -> mn <> 0 -> Forall noise_nonnegative calls ->
  (exists s', update_accel (apply_calls (init pn an gn mn) calls) ax ay az
              = Done s') /\
  (exists s', update_magnetometer (apply_calls (init pn an gn mn) calls) angle
              = Done s').
Proof.
  intros Hpn Han Hmn Hcalls.
  pose proof (reachable_covariances_ok pn an gn mn calls Hpn Hcalls) as Hok.
  destruct (apply_calls_keeps_R (init pn an gn mn) calls) as [Ha Hm].
  split.
  - apply update_accel_returns with (r := an ^ 2); [exact Hok | nra |].
    intros i j _ _. rewrite Ha. reflexivity.
  - apply update_magnetometer_returns; [exact Hok|].
    rewrite Hm. cbn. unfold mscale, eye. cbn. nra.
Qed.

End CorrectionsComplete.

(** ** The Madgwick renormalization: when the norm cannot vanish *)

Section MadgwickFinite.

Import MadgwickQuaternion.

Lemma sum4_sq_zero (a b c d : R) :
  a * a + b * b + c * c + d * d = 0 -> a = 0 /\ b = 0 /\ c = 0 /\ d = 0.
Proof.
  intros H.
  assert (Ha : a * a = 0) by nra. assert (Hb : b * b = 0) by nra.
  assert (Hc : c * c = 0) by nra. assert (Hd : d * d = 0) by nra.
  repeat split; nra.
Qed.

(** The gyro step [q + qDot dt] does not shorten [q]: [qDot] is orthogonal
    to [q]. *)
Lemma gyro_step_norm (q0 q1 q2 q3 gx gy gz dt : R) :
  let qDot1 := 0.5 * (- q1 * gx - q2 * gy - q3 * gz) in
  let qDot2 := 0.5 * (q0 * gx + q2 * gz - q3 * gy) in
  let qDot3 := 0.5 * (q0 * gy - q1 * gz + q3 * gx) in
  let qDot4 := 0.5 * (q0 * gz + q1 * gy - q2 * gx) in
  (q0 + qDot1 * dt) * (q0 + qDot1 * dt) + (q1 + qDot2 * dt) * (q1 + qDot2 * dt)
  + (q2 + qDot3 * dt) * (q2 + qDot3 * dt) + (q3 + qDot4 * dt) * (q3 + qDot4 * dt)
  = (q0 * q0 + q1 * q1 + q2 * q2 + q3 * q3)
    * (1 + dt * dt * (gx * gx + gy * gy + gz * gz) / 4).
Proof. intros. subst qDot1 qDot2 qDot3 qDot4. lra. Qed.

(** A gradient step of length [|c| < 1] along a vector [t] of norm at most
    one cannot cancel a vector [v] of norm at least one. *)
Lemma corrected_step_nonzero (v0 v1 v2 v3 t0 t1 t2 t3 c : R) :
  1 <= v0 * v0 + v1 * v1 + v2 * v2 + v3 * v3 ->
  t0 * t0 + t1 * t1 + t2 * t2 + t3 * t3 <= 1 ->
  c * c < 1 ->
  (v0 - c * t0) * (v0 - c * t0) + (v1 - c * t1) * (v1 - c * t1)
  + (v2 - c * t2) * (v2 - c * t2) + (v3 - c * t3) * (v3 - c * t3) <> 0.
Proof.
  intros Hv Ht Hc H. apply sum4_sq_zero in H. destruct H as (E0 & E1 & E2 & E3).
  assert (F0 : v0 = c * t0) by lra. assert (F1 : v1 = c * t1) by lra.
  assert (F2 : v2 = c * t2) by lra. assert (F3 : v3 = c * t3) by lra.
  rewrite F0, F1, F2, F3 in Hv.
  assert (Hcc : 0 <= c * c) by nra.
  assert (E : c * t0 * (c * t0) + c * t1 * (c * t1) + c * t2 * (c * t2)
              + c * t3 * (c * t3)
              = c * c * (t0 * t0 + t1 * t1 + t2 * t2 + t3 * t3)) by ring.
  rewrite E in Hv. nra.
Qed.

Lemma gyro_only_finite (s : t) (gx gy gz dt : R) :
  norm2 (q s) = 1 ->
  exists s' e, _update_imu_gyro_only s gx gy gz dt = Some (s', e).
Proof.
  unfold _update_imu_gyro_only, norm2. destruct (q s) as [[[q0 q1] q2] q3].
  intros Hq. cbv zeta.
  rewrite store_normalized_nonzero; [do 2 eexists; reflexivity|].
  intros Hz. apply sqrt_eq_0 in Hz; [|nra].
  pose proof (gyro_step_norm q0 q1 q2 q3 gx gy gz dt) as Hstep.
  cbv zeta in Hstep. rewrite Hstep, Hq in Hz. nra.
Qed.

Lemma store_step_finite
  (s : t) (count : nat) (q0 q1 q2 q3 gx gy gz d t0 t1 t2 t3 : R) :
  q0 * q0 + q1 * q1 + q2 * q2 + q3 * q3 = 1 ->
  (beta s * d) * (beta s * d) < 1 ->
  t0 * t0 + t1 * t1 + t2 * t2 + t3 * t3 <= 1 ->
  let p0 := q0 + (0.5 * (- q1 * gx - q2 * gy - q3 * gz) - beta s * t0) * d in
  let p1 := q1 + (0.5 * (q0 * gx + q2 * gz - q3 * gy) - beta s * t1) * d in
  let p2 := q2 + (0.5 * (q0 * gy - q1 * gz + q3 * gx) - beta s * t2) * d in
  let p3 := q3 + (0.5 * (q0 * gz + q1 * gy - q2 * gx) - beta s * t3) * d in
  exists s',
    store_normalized s count p0 p1 p2 p3
      (sqrt (p0 * p0 + p1 * p1 + p2 * p2 + p3 * p3)) = Some s'.
Proof.
  intros Hq Hcc Ht p0 p1 p2 p3.
  rewrite store_normalized_nonzero; [eexists; reflexivity|].
  intros Hz. apply sqrt_eq_0 in Hz; [|nra].
  pose proof (gyro_step_norm q0 q1 q2 q3 gx gy gz d) as Hstep.
  cbv zeta in Hstep.
  assert (Hv : 1 <= (q0 * q0 + q1 * q1 + q2 * q2 + q3 * q3)
                    * (1 + d * d * (gx * gx + gy * gy + gz * gz) / 4)).
  { rewrite Hq. nra. }
  rewrite <- Hstep in Hv.
  apply (corrected_step_nonzero _ _ _ _ t0 t1 t2 t3 (beta s * d) Hv Ht Hcc).
  rewrite <- Hz. unfold p0, p1, p2, p3. ring.
Qed.

(** When [q] has norm one and [|beta * dt| < 1], [update] stores a finite
    quaternion (of norm one, by [update_unit_norm]). *)
Lemma update_finite (s : t) (ax ay az gx gy gz : R) (dt : option R) :
  norm2 (q s) = 1 ->
  Rabs (beta s * match dt with Some d => d | None => sample_period s end) < 1 ->
  exists s' e, update s ax ay az gx gy gz dt = Some (s', e).
Proof.
  intros Hq Hc. unfold update. cbv zeta.
  set (d := match dt with Some d => d | None => sample_period s end) in *.
  destruct (Req_dec_T _ 0) as [_|_]; [now apply gyro_only_finite|].
  unfold norm2 in Hq. destruct (q s) as [[[q0 q1] q2] q3].
  destruct (gradient _ _ _ _ _ _ _) as [[[s0 s1] s2] s3].
  set (gn := sqrt (s0 * s0 + s1 * s1 + s2 * s2 + s3 * s3)).
  assert (Hgn : gn * gn = s0 * s0 + s1 * s1 + s2 * s2 + s3 * s3)
    by (apply sqrt_sqrt; nra).
  assert (Hcc : (beta s * d) * (beta s * d) < 1).
  { apply Rabs_def2 in Hc. nra. }
  destruct (Rgt_dec gn 0) as [Hpos|Hnpos].
  - assert (Ht : s0 / gn * (s0 / gn) + s1 / gn * (s1 / gn) + s2 / gn * (s2 / gn)
                 + s3 / gn * (s3 / gn) <= 1).
    { replace (s0 / gn * (s0 / gn) + s1 / gn * (s1 / gn) + s2 / gn * (s2 / gn)
               + s3 / gn * (s3 / gn))
        with ((s0 * s0 + s1 * s1 + s2 * s2 + s3 * s3) / (gn * gn))
        by (field; lra).
      rewrite <- Hgn. right. field. nra. }
    destruct (store_step_finite s (S (update_count s)) q0 q1 q2 q3
                (radians gx) (radians gy) (radians gz) d _ _ _ _ Hq Hcc Ht)
      as [s' Hs'].
    cbv zeta in Hs'. rewrite Hs'. now do 2 eexists.
  - assert (Ht : s0 * s0 + s1 * s1 + s2 * s2 + s3 * s3 <= 1).
    { assert (gn = 0)
        by (pose proof (sqrt_pos (s0 * s0 + s1 * s1 + s2 * s2 + s3 * s3)) as Hp;
            fold gn in Hp; lra).
      nra. }
    destruct (store_step_finite s (S (update_count s)) q0 q1 q2 q3
                (radians gx) (radians gy) (radians gz) d _ _ _ _ Hq Hcc Ht)
      as [s' Hs'].
    cbv zeta in Hs'. rewrite Hs'. now do 2 eexists.
Qed.

End MadgwickFinite.

Section MadgwickRuns.

Import MadgwickQuaternion.

Lemma store_normalized_keeps_config (s s' : t) (count : nat) (a b c d n : R) :
  store_normalized s count a b c d n = Some s' ->
  beta s' = beta s /\ sample_period s' = sample_period s.
Proof.
  destruct (Req_dec_T n 0) as [->|Hn].
  - now rewrite store_normalized_zero.
  - rewrite store_normalized_nonzero by assumption.
    intros E. injection E as <-. now split.
Qed.

Lemma update_keeps_config (s s' : t) (ax ay az gx gy gz : R) (dt : option R)
      (e : euler) :
  update s ax ay az gx gy gz dt = Some (s', e) ->
  beta s' = beta s /\ sample_period s' = sample_period s.
Proof.
  unfold update, _update_imu_gyro_only. cbv zeta.
  destruct (q s) as [[[q0 q1] q2] q3].
  destruct (Req_dec_T _ 0) as [_|_];
    [|destruct (gradient _ _ _ _ _ _ _) as [[[s0 s1] s2] s3];
      destruct (Rgt_dec _ 0) as [_|_]];
    match goal with
    | |- context [store_normalized ?s ?c ?a ?b ?cc ?d ?n] =>
        destruct (store_normalized s c a b cc d n) as [s1'|] eqn:E
    end; try discriminate;
    intros H; injection H as <- _; eapply store_normalized_keeps_config; exact E.
Qed.

(** Every run of [update] calls whose steps all satisfy [|beta * dt| < 1],
    started on a quaternion of norm one, stays finite and ends on a
    quaternion of norm one. *)
Lemma run_unit_norm (inputs : list sample) (s : t) :
  norm2 (q s) = 1 ->
  Forall (fun i : sample =>
            let '(_, _, _, _, _, _, dt) := i in
            Rabs (beta s * match dt with Some d => d | None => sample_period s end)
            < 1) inputs ->
  exists s', run s inputs = Some s' /\ norm2 (q s') = 1.
Proof.
  revert s. induction inputs as [|[[[[[[ax ay] az] gx] gy] gz] dt] rest IH];
    intros s Hq Hall; [now exists s|].
  apply Forall_cons_iff in Hall. destruct Hall as [Hhd Htl].
  destruct (update_finite s ax ay az gx gy gz dt Hq Hhd) as (s1 & e & Hu).
  cbn [run]. rewrite Hu.
  destruct (update_keeps_config _ _ _ _ _ _ _ _ _ _ Hu) as [Hb Hsp].
  apply IH; [eapply update_unit_norm; exact Hu|].
  rewrite Hb, Hsp. exact Htl.
Qed.

End MadgwickRuns.

(* ================================================================== *)
(** * Part III: further properties of the two modules                  *)
(* ================================================================== *)

(** ** Quaternion conversions *)

(** Whatever the three angles, [euler_to_quaternion] returns a quaternion of
    norm one. *)
Theorem euler_to_quaternion_unit (roll pitch yaw : R) :
  MadgwickQuaternion.norm2 (euler_to_quaternion roll pitch yaw) = 1.
Proof.
  unfold euler_to_quaternion, MadgwickQuaternion.norm2. cbv zeta.
  set (a := radians roll * 0.5). set (b := radians pitch * 0.5).
  set (c := radians yaw * 0.5).
  transitivity ((sin a * sin a + cos a * cos a) * (sin b * sin b + cos b * cos b)
                * (sin c * sin c + cos c * cos c)); [ring|].
  rewrite !sin_cos_sq. ring.
Qed.

Lemma atan2_range (y x : R) : - PI < atan2 y x <= PI.
Proof.
  pose proof PI_RGT_0 as Hpi. unfold atan2.
  pose proof (atan_bound (y / x)) as Hb.
  destruct (Rlt_dec 0 x) as [Hx|Hx]; [lra|].
  destruct (Rlt_dec x 0) as [Hx'|Hx'].
  - destruct (Rle_dec 0 y) as [Hy|Hy].
    + assert (Hq : y / x <= 0).
      { unfold Rdiv. assert (/ x < 0) by now apply Rinv_lt_0_compat. nra. }
      assert (atan (y / x) <= 0).
      { destruct Hq as [Hq|Hq]; [left; rewrite <- atan_0; now apply atan_increasing|].
        rewrite Hq, atan_0. lra. }
      lra.
    + assert (Hq : 0 < y / x).
      { unfold Rdiv. assert (/ x < 0) by now apply Rinv_lt_0_compat. nra. }
      assert (0 < atan (y / x)) by (rewrite <- atan_0; now apply atan_increasing).
      lra.
  - destruct (Rlt_dec 0 y); [lra|]. destruct (Rlt_dec y 0); lra.
Qed.

Lemma pitch_range (sinp : R) :
  - (PI / 2)
  <= (if Rge_dec (Rabs sinp) 1 then copysign (PI / 2) sinp else asin sinp)
  <= PI / 2.
Proof.
  pose proof PI_RGT_0 as Hpi.
  destruct (Rge_dec (Rabs sinp) 1) as [_|_]; [|apply asin_bound].
  unfold copysign. rewrite (Rabs_pos_eq (PI / 2)) by lra.
  destruct (Rle_dec 0 sinp); lra.
Qed.

Lemma degrees_range (x lo hi : R) :
  (lo < x -> degrees lo < degrees x) /\ (lo <= x -> degrees lo <= degrees x) /\
  (x <= hi -> degrees x <= degrees hi).
Proof.
  pose proof PI_RGT_0 as Hpi. unfold degrees.
  assert (Hk : 0 < 180 / PI) by (apply Rdiv_lt_0_compat; lra).
  replace (lo * 180 / PI) with (lo * (180 / PI)) by (field; lra).
  replace (x * 180 / PI) with (x * (180 / PI)) by (field; lra).
  replace (hi * 180 / PI) with (hi * (180 / PI)) by (field; lra).
  repeat split; intros; nra.
Qed.

Lemma degrees_PI : degrees PI = 180 /\ degrees (- PI) = -180 /\
                   degrees (PI / 2) = 90 /\ degrees (- (PI / 2)) = -90.
Proof.
  pose proof PI_RGT_0 as Hpi. unfold degrees. repeat split; field; lra.
Qed.

(** For every quaternion, unit or not, [quaternion_to_euler] returns a roll
    and a yaw within [[-180, 180]] degrees and a pitch within [[-90, 90]]
    degrees. *)
Theorem quaternion_to_euler_ranges (w x y z : R) :
  let '(roll, pitch, yaw) := quaternion_to_euler w x y z in
  -180 <= roll <= 180 /\ -90 <= pitch <= 90 /\ -180 <= yaw <= 180.
Proof.
  unfold quaternion_to_euler. cbv zeta.
  destruct degrees_PI as (D1 & D2 & D3 & D4).
  assert (Hat : forall a b, -180 <= degrees (atan2 a b) <= 180).
  { intros a b. destruct (atan2_range a b) as [Hlo Hhi].
    rewrite <- D1, <- D2. split.
    - apply (degrees_range (atan2 a b) (- PI) PI). lra.
    - now apply (degrees_range (atan2 a b) (- PI) PI). }
  split; [apply Hat|]. split; [|apply Hat].
  destruct (pitch_range (2 * (w * y - z * x))) as [Hlo Hhi].
  rewrite <- D3, <- D4. split.
  - now apply (degrees_range _ (- (PI / 2)) (PI / 2)).
  - now apply (degrees_range _ (- (PI / 2)) (PI / 2)).
Qed.

(** The method [MadgwickQuaternion.get_euler_angles] and the module function
    [quaternion_to_euler] give the same angles on the filter's quaternion. *)
Theorem get_euler_angles_is_quaternion_to_euler (s : MadgwickQuaternion.t) :
  MadgwickQuaternion.get_euler_angles s
  = (let '(w, x, y, z) := MadgwickQuaternion.get_quaternion s in
     quaternion_to_euler w x y z).
Proof.
  unfold MadgwickQuaternion.get_euler_angles, MadgwickQuaternion.get_quaternion,
    quaternion_to_euler.
  destruct (MadgwickQuaternion.q s) as [[[q0 q1] q2] q3]. cbv zeta.
  replace 2.0 with 2 by lra. replace 1.0 with 1 by lra. reflexivity.
Qed.

(** ** The rotation matrix *)

Section RotationMatrix.

Import MadgwickQuaternion.

(** On a quaternion of norm one, [get_rotation_matrix] is a rotation: its
    3 x 3 block times its transpose is the identity and has determinant one,
    and the fourth row and column are [(0, 0, 0, 1)]. *)
Theorem rotation_matrix_is_rotation (s : t) :
  norm2 (q s) = 1 ->
  (forall i j, (i < 3)%nat -> (j < 3)%nat ->
     mmul 3 (get_rotation_matrix s) (mT (get_rotation_matrix s)) i j = eye i j) /\
  det3 (get_rotation_matrix s) = 1 /\
  (forall k, (k < 3)%nat ->
     get_rotation_matrix s 3%nat k = 0 /\ get_rotation_matrix s k 3%nat = 0) /\
  get_rotation_matrix s 3%nat 3%nat = 1.
Proof.
  unfold norm2, get_rotation_matrix. destruct (q s) as [[[q0 q1] q2] q3].
  intros Hq. cbv zeta.
  set (N := q0 * q0 + q1 * q1 + q2 * q2 + q3 * q3) in Hq.
  assert (HN2 : N * N = 1) by (rewrite Hq; lra).
  assert (HN3 : N * N * N = 1) by (rewrite Hq; lra).
  split; [|split; [|split]].
  - intros i j Hi Hj. unfold mmul, mT, eye. cbn [sum_n].
    do 3 (destruct i as [|i]; [do 3 (destruct j as [|j];
          [cbn [Nat.eqb]; try (rewrite <- HN2; unfold N); lra|]); lia|]); lia.
  - unfold det3. rewrite <- HN3. unfold N. lra.
  - intros k Hk. do 3 (destruct k as [|k]; [split; lra|]). lia.
  - lra.
Qed.

Lemma rotation_matrix_is_rotation_identity :
  norm2 (q (mk 0.1 10.0 0.1 (1.0, 0.0, 0.0, 0.0) 0)) = 1 /\
  det3 (get_rotation_matrix (mk 0.1 10.0 0.1 (1.0, 0.0, 0.0, 0.0) 0)) = 1.
Proof.
  assert (H : norm2 (q (mk 0.1 10.0 0.1 (1.0, 0.0, 0.0, 0.0) 0)) = 1)
    by (cbn; lra).
  split; [exact H|].
  exact (proj1 (proj2 (rotation_matrix_is_rotation _ H))).
Defined.

(** On a quaternion of norm one, the 16 numbers that the renderer hands to
    [glMultMatrixf] are [get_rotation_matrix] laid out column by column:
    entry [4 j + i] of the list is entry [i, j] of the matrix. *)
Theorem renderer_matrix_is_rotation_matrix (s : t) (i j : nat) :
  norm2 (q s) = 1 -> (i < 4)%nat -> (j < 4)%nat ->
  nth (4 * j + i) (GL3DWidget._apply_quaternion_rotation (get_quaternion s)) 0
  = get_rotation_matrix s i j.
Proof.
  unfold norm2, get_rotation_matrix, get_quaternion,
    GL3DWidget._apply_quaternion_rotation.
  destruct (q s) as [[[w x] y] z]. intros Hq Hi Hj. cbv zeta.
  do 4 (destruct i as [|i]; [do 4 (destruct j as [|j]; [cbn; lra|]); lia|]); lia.
Qed.

Lemma renderer_matrix_is_rotation_matrix_identity :
  norm2 (q (mk 0.1 10.0 0.1 (1.0, 0.0, 0.0, 0.0) 0)) = 1 /\
  nth (4 * 1 + 2)
      (GL3DWidget._apply_quaternion_rotation
         (get_quaternion (mk 0.1 10.0 0.1 (1.0, 0.0, 0.0, 0.0) 0))) 0
  = get_rotation_matrix (mk 0.1 10.0 0.1 (1.0, 0.0, 0.0, 0.0) 0) 2%nat 1%nat.
Proof.
  assert (H : norm2 (q (mk 0.1 10.0 0.1 (1.0, 0.0, 0.0, 0.0) 0)) = 1)
    by (cbn; lra).
  split; [exact H|].
  apply (renderer_matrix_is_rotation_matrix _ 2 1 H); lia.
Defined.

End RotationMatrix.

(** ** Runs of the Madgwick filter *)

Section MadgwickExtras.

Import MadgwickQuaternion.

(** On a filter whose quaternion has norm one, every run of [update] calls
    whose steps all satisfy [|beta * dt| < 1] completes with finite
    quaternions, ends on a quaternion of norm one and leaves [beta]
    unchanged. *)
Theorem madgwick_run_keeps_unit_norm (inputs : list sample) (s : t) :
  norm2 (q s) = 1 ->
  Forall (fun i : sample =>
            let '(_, _, _, _, _, _, dt) := i in
            Rabs (beta s * match dt with Some d => d | None => sample_period s end)
            < 1) inputs ->
  exists s', run s inputs = Some s' /\ norm2 (q s') = 1 /\ beta s' = beta s.
Proof.
  revert s. induction inputs as [|[[[[[[ax ay] az] gx] gy] gz] dt] rest IH];
    intros s Hq Hall; [now exists s|].
  apply Forall_cons_iff in Hall. destruct Hall as [Hhd Htl].
  destruct (update_finite s ax ay az gx gy gz dt Hq Hhd) as (s1 & e & Hu).
  cbn [run]. rewrite Hu.
  destruct (update_keeps_config _ _ _ _ _ _ _ _ _ _ Hu) as [Hb Hsp].
  destruct (IH s1) as (s' & Hr & Hn & Hb'); [eapply update_unit_norm; exact Hu| |].
  - rewrite Hb, Hsp. exact Htl.
  - exists s'. rewrite Hb' , Hb. auto.
Qed.

Lemma madgwick_run_keeps_unit_norm_two_calls :
  norm2 (q (mk 0.1 10.0 0.1 (1.0, 0.0, 0.0, 0.0) 0)) = 1 /\
  exists s', run (mk 0.1 10.0 0.1 (1.0, 0.0, 0.0, 0.0) 0)
                 [(0, 0, 1, 0, 0, 10, Some 0.1); (0, 0, 0, 5, 0, 0, None)]
             = Some s' /\ norm2 (q s') = 1 /\ beta s' = 0.1.
Proof.
  assert (H : norm2 (q (mk 0.1 10.0 0.1 (1.0, 0.0, 0.0, 0.0) 0)) = 1)
    by (cbn; lra).
  split; [exact H|].
  apply (madgwick_run_keeps_unit_norm
           [(0, 0, 1, 0, 0, 10, Some 0.1); (0, 0, 0, 5, 0, 0, None)] _ H).
  repeat constructor; cbn; apply Rabs_def1; lra.
Defined.

(** [update] counts a call only on its normal path: a call with a zero
    acceleration (the gyro-only path) leaves [update_count] as it was, any
    other call that stores a finite quaternion adds one. *)
Theorem update_counts_normal_path_only
  (s s' : t) (ax ay az gx gy gz : R) (dt : option R) (e : euler) :
  update s ax ay az gx gy gz dt = Some (s', e) ->
  (ax = 0 /\ ay = 0 /\ az = 0 -> update_count s' = update_count s) /\
  (~ (ax = 0 /\ ay = 0 /\ az = 0) -> update_count s' = S (update_count s)).
Proof.
  assert (Hz : sqrt (ax * ax + ay * ay + az * az) = 0
               <-> ax = 0 /\ ay = 0 /\ az = 0).
  { split.
    - intros H. apply sqrt_eq_0 in H; [|nra].
      assert (ax * ax = 0) by nra. assert (ay * ay = 0) by nra.
      assert (az * az = 0) by nra. repeat split; nra.
    - intros (-> & -> & ->).
      replace (0 * 0 + 0 * 0 + 0 * 0) with 0 by ring. apply sqrt_0. }
  unfold update, _update_imu_gyro_only. cbv zeta.
  destruct (q s) as [[[q0 q1] q2] q3].
  assert (Hstore : forall c a b cc d n s1,
            store_normalized s c a b cc d n = Some s1 -> update_count s1 = c).
  { intros c a b cc d n s1. destruct (Req_dec_T n 0) as [->|Hn].
    - now rewrite store_normalized_zero.
    - rewrite store_normalized_nonzero by assumption.
      intros E. now injection E as <-. }
  destruct (Req_dec_T _ 0) as [E0|E0];
    [|destruct (gradient _ _ _ _ _ _ _) as [[[s0 s1] s2] s3];
      destruct (Rgt_dec _ 0) as [_|_]];
    match goal with
    | |- context [store_normalized ?s ?c ?a ?b ?cc ?d ?n] =>
        destruct (store_normalized s c a b cc d n) as [s1'|] eqn:E
    end; try discriminate;
    intros H; injection H as <- _; apply Hstore in E; rewrite E;
    (split; intros Hc; [|]); try reflexivity;
    solve [ exfalso; apply Hc; now apply Hz
          | exfalso; apply E0; now apply Hz ].
Qed.

Lemma update_counts_normal_path_only_gyro_call :
  exists s' e,
    update (mk 0.1 10.0 0.1 (1.0, 0.0, 0.0, 0.0) 7) 0 0 0 5 0 0 (Some 0.1)
    = Some (s', e) /\ update_count s' = 7%nat.
Proof.
  destruct (update_finite (mk 0.1 10.0 0.1 (1.0, 0.0, 0.0, 0.0) 7)
              0 0 0 5 0 0 (Some 0.1)) as (s' & e & Hu).
  - cbn. lra.
  - cbn. apply Rabs_def1; lra.
  - exists s', e. split; [exact Hu|].
    apply (update_counts_normal_path_only _ _ _ _ _ _ _ _ _ _ Hu). now repeat split.
Defined.

(** [reset] restores the identity quaternion and a zero call count whatever
    the filter was, keeps the gain, and the Euler angles then read
    [(0, 0, 0)]. *)
Theorem reset_restores_level_attitude (s : t) :
  q (reset s) = (1.0, 0.0, 0.0, 0.0) /\ update_count (reset s) = 0%nat /\
  beta (reset s) = beta s /\ norm2 (q (reset s)) = 1 /\
  get_euler_angles (reset s) = (0, 0, 0).
Proof.
  split; [reflexivity|]. split; [reflexivity|]. split; [reflexivity|].
  split; [cbn; lra|].
  unfold get_euler_angles. cbn [q reset]. cbv zeta.
  assert (Hd : degrees 0 = 0) by (unfold degrees; lra).
  assert (Hat : atan2 0 1 = 0).
  { unfold atan2. destruct (Rlt_dec 0 1) as [_|H]; [|lra].
    replace (0 / 1) with 0 by lra. apply atan_0. }
  replace (2.0 * (1.0 * 0.0 + 0.0 * 0.0)) with 0 by lra.
  replace (1.0 - 2.0 * (0.0 * 0.0 + 0.0 * 0.0)) with 1 by lra.
  replace (2.0 * (1.0 * 0.0 - 0.0 * 0.0)) with 0 by lra.
  rewrite Hat, Rabs_R0.
  destruct (Rge_dec 0 1) as [H|_]; [lra|].
  now rewrite asin_0, Hd.
Qed.

End MadgwickExtras.

(** ** The compatibility wrapper in use *)

Section AttitudeCalculatorRuns.

Lemma beta_of_any_alpha (alpha : R) :
  0.033 <= Rmax 0.033 (Rmin 0.3 ((1 - alpha) * 2.0)) <= 0.3.
Proof.
  unfold Rmax, Rmin.
  destruct (Rle_dec 0.3 _); destruct (Rle_dec 0.033 _); lra.
Qed.

Lemma attitude_calculator_run_aux
  (inputs : list (R * R * R * R * R * R * R)) (c : AttitudeCalculator.t) :
  MadgwickQuaternion.norm2 (MadgwickQuaternion.q (AttitudeCalculator.base c)) = 1 ->
  0 <= MadgwickQuaternion.beta (AttitudeCalculator.base c) <= 0.3 ->
  Forall (fun i => let '(_, _, _, _, _, _, dt) := i in Rabs dt <= 3) inputs ->
  exists c', AttitudeCalculator.run c inputs = Some c' /\
             MadgwickQuaternion.norm2 (AttitudeCalculator.get_quaternion c') = 1 /\
             MadgwickQuaternion.beta (AttitudeCalculator.base c')
             = MadgwickQuaternion.beta (AttitudeCalculator.base c).
Proof.
  revert c. induction inputs as [|[[[[[[ax ay] az] gx] gy] gz] dt] rest IH];
    intros c Hq Hb Hall; [now exists c|].
  apply Forall_cons_iff in Hall. destruct Hall as [Hhd Htl].
  assert (Hstep : Rabs (MadgwickQuaternion.beta (AttitudeCalculator.base c) * dt) < 1).
  { rewrite Rabs_mult, (Rabs_pos_eq (MadgwickQuaternion.beta _)) by lra.
    pose proof (Rabs_pos dt). nra. }
  destruct (update_finite (AttitudeCalculator.base c) ax ay az gx gy gz (Some dt)
              Hq Hstep) as (b1 & [[r p] y] & Hu).
  cbn [AttitudeCalculator.run]. unfold AttitudeCalculator.update. rewrite Hu.
  destruct (update_keeps_config _ _ _ _ _ _ _ _ _ _ Hu) as [Hb1 _].
  destruct (IH (AttitudeCalculator.mk b1 r p y)) as (c' & Hr & Hn & Hb');
    [eapply update_unit_norm; exact Hu | cbn; rewrite Hb1; exact Hb | exact Htl |].
  exists c'. cbn in Hb'. rewrite Hb', Hb1. auto.
Qed.

Lemma attitude_calculator_init_total (alpha : R) :
  exists c0, AttitudeCalculator.init alpha = Some c0.
Proof.
  unfold AttitudeCalculator.init, MadgwickQuaternion.init.
  destruct (Req_dec_T 10.0 0) as [H|_]; [lra | eexists; reflexivity].
Qed.

(** Whatever [alpha] it is constructed with, an [AttitudeCalculator] fed any
    sequence of [update] calls with [|dt| <= 3] seconds (the application
    passes [dt = 0.1]) never stores a non-finite quaternion: the run
    completes and [get_quaternion] has norm one at its end. *)
Theorem attitude_calculator_run_stays_unit
  (alpha : R) (c0 : AttitudeCalculator.t)
  (inputs : list (R * R * R * R * R * R * R)) :
  AttitudeCalculator.init alpha = Some c0 ->
  Forall (fun i => let '(_, _, _, _, _, _, dt) := i in Rabs dt <= 3) inputs ->
  exists c', AttitudeCalculator.run c0 inputs = Some c' /\
             MadgwickQuaternion.norm2 (AttitudeCalculator.get_quaternion c') = 1.
Proof.
  unfold AttitudeCalculator.init, MadgwickQuaternion.init.
  destruct (Req_dec_T 10.0 0) as [H|_]; [lra|].
  intros E Hall. injection E as <-.
  destruct (attitude_calculator_run_aux inputs
              (AttitudeCalculator.mk
                 (MadgwickQuaternion.mk (Rmax 0.033 (Rmin 0.3 ((1 - alpha) * 2.0)))
                    10.0 (1.0 / 10.0) (1.0, 0.0, 0.0, 0.0) 0) 0.0 0.0 0.0))
    as (c' & Hr & Hn & _); try assumption.
  - cbn. lra.
  - cbn. pose proof (beta_of_any_alpha alpha). lra.
  - now exists c'.
Qed.

Lemma attitude_calculator_run_stays_unit_default :
  exists c0 c',
    AttitudeCalculator.init 0.98 = Some c0 /\
    AttitudeCalculator.run c0 [(0, 0, 1, 5, 0, 0, 0.1); (0.1, 0, 1, 0, 2, 0, 0.1)]
    = Some c' /\
    MadgwickQuaternion.norm2 (AttitudeCalculator.get_quaternion c') = 1.
Proof.
  destruct (attitude_calculator_init_total 0.98) as (c0 & Hi).
  destruct (attitude_calculator_run_stays_unit 0.98 c0
              [(0, 0, 1, 5, 0, 0, 0.1); (0.1, 0, 1, 0, 2, 0, 0.1)] Hi)
    as (c' & Hr & Hn).
  - repeat constructor; cbn; rewrite Rabs_pos_eq; lra.
  - now exists c0, c'.
Defined.

End AttitudeCalculatorRuns.

(** ** Configuration setters that clamp *)

(** [set_mag_trust] stores its argument clamped to [[0, 1]] and [set_beta]
    its argument clamped to [[0.01, 0.5]]: the nearest bound for an argument
    outside the range, the argument itself inside it (so setting the stored
    value again changes nothing). *)
Theorem trust_and_gain_setters_clamp
  (k : ExtendedKalmanFilter.t) (m : MadgwickQuaternion.t) (x : R) :
  ExtendedKalmanFilter.mag_trust_factor (ExtendedKalmanFilter.set_mag_trust k x)
  = (if Rlt_dec x 0 then 0 else if Rlt_dec 1 x then 1 else x) /\
  MadgwickQuaternion.beta (MadgwickQuaternion.set_beta m x)
  = (if Rlt_dec x 0.01 then 0.01 else if Rlt_dec 0.5 x then 0.5 else x) /\
  ExtendedKalmanFilter.set_mag_trust (ExtendedKalmanFilter.set_mag_trust k x)
    (ExtendedKalmanFilter.mag_trust_factor (ExtendedKalmanFilter.set_mag_trust k x))
  = ExtendedKalmanFilter.set_mag_trust k x /\
  MadgwickQuaternion.set_beta (MadgwickQuaternion.set_beta m x)
    (MadgwickQuaternion.beta (MadgwickQuaternion.set_beta m x))
  = MadgwickQuaternion.set_beta m x.
Proof.
  destruct (set_mag_trust_clamps k x) as (Hk1 & Hk2 & Hk3).
  destruct (set_beta_clamps m x) as (Hm1 & Hm2 & Hm3).
  split; [|split; [|split]].
  - cbn. unfold Rmax, Rmin.
    destruct (Rlt_dec x 0); destruct (Rlt_dec 1 x);
      destruct (Rle_dec 1.0 x); destruct (Rle_dec 0.0 _); lra.
  - cbn. unfold Rmax, Rmin.
    destruct (Rlt_dec x 0.01); destruct (Rlt_dec 0.5 x);
      destruct (Rle_dec 0.5 x); destruct (Rle_dec 0.01 _); lra.
  - unfold ExtendedKalmanFilter.set_mag_trust at 1.
    unfold ExtendedKalmanFilter.with_mag_trust_factor at 1.
    rewrite Rmin_right, Rmax_right by (try rewrite Rmin_right; lra).
    destruct k; reflexivity.
  - unfold MadgwickQuaternion.set_beta at 1.
    rewrite Rmin_right, Rmax_right by (try rewrite Rmin_right; lra).
    destruct m; reflexivity.
Qed.

(** ** Angle normalization, further *)

Section NormalizeAngleExtras.

Import ExtendedKalmanFilter.

Lemma normalize_angle_range (a : R) : - PI <= _normalize_angle a <= PI.
Proof.
  unfold _normalize_angle.
  destruct (normalize_angle_fuel_spec a) as (r & Hr & Hrange & _).
  now rewrite Hr.
Qed.

(** [_normalize_angle] returns an angle of [[-PI, PI]] as it is, and
    normalizing twice is normalizing once. *)
Theorem normalize_angle_idempotent (a : R) :
  _normalize_angle (_normalize_angle a) = _normalize_angle a /\
  (_normalize_angle a = a <-> - PI <= a <= PI).
Proof.
  pose proof (normalize_angle_range a) as Hr.
  split; [now apply normalize_angle_id|].
  split; [intros E; now rewrite <- E | apply normalize_angle_id].
Qed.

Lemma sin_cos_shift (a : R) (k : Z) :
  sin (a + 2 * PI * IZR k) = sin a /\ cos (a + 2 * PI * IZR k) = cos a.
Proof.
  destruct (Z_le_gt_dec 0 k) as [Hk|Hk].
  - rewrite <- (Z2Nat.id k Hk), <- INR_IZR_INZ.
    replace (a + 2 * PI * INR (Z.to_nat k)) with (a + 2 * INR (Z.to_nat k) * PI)
      by ring.
    split; [apply sin_period | apply cos_period].
  - set (b := a + 2 * PI * IZR k).
    assert (Ha : a = b + 2 * INR (Z.to_nat (- k)) * PI).
    { unfold b. rewrite INR_IZR_INZ, Z2Nat.id by lia. rewrite opp_IZR. ring. }
    split; [transitivity (sin (b + 2 * INR (Z.to_nat (- k)) * PI))
           |transitivity (cos (b + 2 * INR (Z.to_nat (- k)) * PI))];
      try (symmetry; first [apply sin_period | apply cos_period]);
      now rewrite <- Ha.
Qed.

(** Normalizing an angle does not change its sine or its cosine. *)
Theorem normalize_angle_same_direction (a : R) :
  sin (_normalize_angle a) = sin a /\ cos (_normalize_angle a) = cos a.
Proof.
  unfold _normalize_angle.
  destruct (normalize_angle_fuel_spec a) as (r & Hr & _ & _ & _ & _ & k & Hk).
  rewrite Hr, Hk. apply sin_cos_shift.
Qed.

End NormalizeAngleExtras.

(** ** What [predict] changes *)

Section PredictExtras.

Import ExtendedKalmanFilter.

Lemma predict_angles_in_range (s : t) (gx gy gz dt : R) (i : nat) :
  (i < 3)%nat -> - PI <= state (predict s gx gy gz dt) i <= PI.
Proof.
  intros Hi. unfold predict. cbv zeta. cbn [state with_P with_state].
  unfold vset. destruct i as [|[|[|i]]]; try lia;
    cbn [Nat.eqb]; apply normalize_angle_range.
Qed.

(** [predict] holds the three gyro-bias estimates, leaves [Q], the
    measurement noises and the trust factors alone, and leaves the three
    angles normalized to [[-PI, PI]]. *)
Theorem predict_holds_biases (s : t) (gx gy gz dt : R) :
  (forall i, (3 <= i)%nat ->
     state (predict s gx gy gz dt) i = state s i) /\
  (forall i, (i < 3)%nat ->
     - PI <= state (predict s gx gy gz dt) i <= PI) /\
  Q (predict s gx gy gz dt) = Q s /\
  R_accel (predict s gx gy gz dt) = R_accel s /\
  R_mag (predict s gx gy gz dt) = R_mag s /\
  accel_trust_factor (predict s gx gy gz dt) = accel_trust_factor s /\
  mag_trust_factor (predict s gx gy gz dt) = mag_trust_factor s.
Proof.
  split; [|split; [|repeat split]].
  - intros i Hi. unfold predict. cbv zeta. cbn [state with_P with_state].
    unfold vset. destruct i as [|[|[|i]]]; try lia. reflexivity.
  - intros i Hi. now apply predict_angles_in_range.
Qed.

(** [predict] adds the process noise to the bias block of the covariance and
    nothing else: [P[i, j] <- P[i, j] + Q[i, j]] for [3 <= i, j < 6],
    whatever the state, the rates and [dt]. *)
Theorem predict_adds_noise_to_bias_block (s : t) (gx gy gz dt : R) (i j : nat) :
  (3 <= i < 6)%nat -> (3 <= j < 6)%nat ->
  P (predict s gx gy gz dt) i j = P s i j + Q s i j.
Proof. apply predict_bias_block. Qed.

Lemma predict_adds_noise_to_bias_block_default :
  (3 <= 4 < 6)%nat /\
  P (predict (init 0.01 0.1 0.01 0.05) 1 2 3 0.1) 4%nat 4%nat
  = P (init 0.01 0.1 0.01 0.05) 4%nat 4%nat
    + Q (init 0.01 0.1 0.01 0.05) 4%nat 4%nat.
Proof.
  assert (H : (3 <= 4 < 6)%nat) by lia.
  split; [exact H|].
  exact (predict_adds_noise_to_bias_block _ 1 2 3 0.1 4 4 H H).
Defined.

End PredictExtras.

(** ** Angles of a reachable filter *)

Section ReachableAngles.

Import ExtendedKalmanFilter.

Lemma apply_call_keeps_angles_in_range (s : t) (c : call) :
  (forall i, (i < 3)%nat -> - PI <= state s i <= PI) ->
  forall i, (i < 3)%nat -> - PI <= state (apply_call s c) i <= PI.
Proof.
  intros Hs i Hi. destruct c; cbn [apply_call].
  - now apply predict_angles_in_range.
  - unfold update_accel. destruct (Rlt_dec _ 0.1); [now apply Hs|]. cbv zeta.
    match goal with |- context [inv_3x3 ?S] => destruct (inv_3x3 S) end;
      cbn [after state with_P with_state with_accel_trust_factor];
      [|now apply Hs].
    unfold vset. destruct i as [|[|[|i]]]; try lia;
      cbn [Nat.eqb]; apply normalize_angle_range.
  - unfold update_magnetometer. cbv zeta.
    match goal with |- context [inv_1x1 ?S] => destruct (inv_1x1 S) end;
      cbn [after state with_P with_state]; [|now apply Hs].
    unfold vset. destruct i as [|[|[|i]]]; try lia;
      cbn [Nat.eqb]; apply normalize_angle_range.
  - now apply Hs.
  - now apply Hs.
  - cbn. pose proof PI_RGT_0. unfold vzeros. lra.
Qed.

(** Whatever the constructor arguments and whatever sequence of [predict],
    [update_accel], [update_magnetometer], [set_mag_trust],
    [set_process_noise] and [reset] calls follows, the three angles of the
    state stay in [[-PI, PI]], so [get_euler_angles] returns three values
    within [[-180, 180]] degrees. *)
Theorem reachable_angles_in_range (pn an gn mn : R) (calls : list call) :
  (forall i, (i < 3)%nat ->
     - PI <= state (apply_calls (init pn an gn mn) calls) i <= PI) /\
  (let '(roll, pitch, yaw) :=
     get_euler_angles (apply_calls (init pn an gn mn) calls) in
   -180 <= roll <= 180 /\ -180 <= pitch <= 180 /\ -180 <= yaw <= 180).
Proof.
  assert (H : forall i, (i < 3)%nat ->
                - PI <= state (apply_calls (init pn an gn mn) calls) i <= PI).
  { unfold apply_calls.
    assert (H0 : forall i, (i < 3)%nat -> - PI <= state (init pn an gn mn) i <= PI)
      by (intros i _; cbn; unfold vzeros; pose proof PI_RGT_0; lra).
    revert H0. generalize (init pn an gn mn) as s.
    induction calls as [|c calls IH]; intros s Hs; [exact Hs|].
    cbn [fold_left]. apply IH. now apply apply_call_keeps_angles_in_range. }
  split; [exact H|].
  unfold get_euler_angles. destruct degrees_PI as (D1 & D2 & _).
  rewrite <- D1, <- D2.
  repeat split;
    apply (degrees_range _ (- PI) PI); apply H; lia.
Qed.

End ReachableAngles.

(** ** A correction never increases a variance *)

Section CorrectionShrinks.

Variables (n m : nat) (P0 H0 R0 S_inv : matrix).

Hypothesis P0_symmetric : symmetric n P0.
Hypothesis P0_psd : psd n P0.
Hypothesis R0_psd : psd m R0.
Hypothesis S_inv_right :
  forall i j, (i < m)%nat -> (j < m)%nat ->
              mmul m (madd (mmul n (mmul n H0 P0) (mT H0)) R0) S_inv i j = eye i j.

Lemma correction_quad_le (x : vector) :
  quad n (mmul n (msub eye (mmul m (mmul m (mmul n P0 (mT H0)) S_inv) H0)) P0) x
  <= quad n P0 x.
Proof.
  unfold quad at 1.
  rewrite (correction_bilinear n m P0 H0 S_inv P0_symmetric x x).
  fold (quad n P0 x).
  set (g := mv n H0 (mv n P0 x)). set (y := mv m S_inv g).
  assert (Hgy : dot m g y
                = quad m (madd (mmul n (mmul n H0 P0) (mT H0)) R0) y).
  { unfold quad. rewrite (dot_comm m y).
    apply dot_ext; [|reflexivity].
    intros a Ha. symmetry.
    exact (innovation_solves n m P0 H0 R0 S_inv S_inv_right x a Ha). }
  assert (0 <= dot m g y).
  { rewrite Hgy. apply madd_psd; [now apply congruence_psd | exact R0_psd]. }
  lra.
Qed.

Lemma correction_diagonal_le (i : nat) :
  (i < n)%nat ->
  mmul n (msub eye (mmul m (mmul m (mmul n P0 (mT H0)) S_inv) H0)) P0 i i
  <= P0 i i.
Proof.
  intros Hi. rewrite <- (quad_unit n _ i Hi), <- (quad_unit n P0 i Hi).
  apply correction_quad_le.
Qed.

End CorrectionShrinks.

Section VarianceExtras.

Import ExtendedKalmanFilter.

(** On a filter with symmetric positive semi-definite covariances, neither
    [update_accel] nor [update_magnetometer] increases a diagonal entry of
    [P]: no variance of the state grows in a correction (it is unchanged
    when the sample is rejected or the inversion raises). *)
Theorem corrections_never_increase_variance
  (s : t) (ax ay az angle : R) (i : nat) :
  covariances_ok s -> (i < 6)%nat ->
  P (after (update_accel s ax ay az)) i i <= P s i i /\
  P (after (update_magnetometer s angle)) i i <= P s i i.
Proof.
  intros (HPs & HPp & _ & _ & _ & HRp & _ & HMp) Hi. split.
  - unfold update_accel. destruct (Rlt_dec _ 0.1) as [_|_]; [cbn; lra|].
    cbv zeta.
    match goal with
    | |- context [inv_3x3 ?S] => destruct (inv_3x3 S) as [S_inv|] eqn:E
    end; cbn [after P with_P with_state with_accel_trust_factor]; [|lra].
    cbn [P with_accel_trust_factor] in E.
    apply correction_diagonal_le
      with (R0 := accel_R (with_accel_trust_factor s
                    (accel_trust (sqrt (ax ^ 2 + ay ^ 2 + az ^ 2)))));
      try assumption.
    + apply mscale_psd; [assumption|]. left. apply trust_scale_pos.
    + now apply inv_3x3_right.
  - unfold update_magnetometer. cbv zeta.
    match goal with
    | |- context [inv_1x1 ?S] => destruct (inv_1x1 S) as [S_inv|] eqn:E
    end; cbn [after P with_P with_state]; [|lra].
    apply correction_diagonal_le with (R0 := mag_R s); try assumption.
    + apply mscale_psd; [assumption|]. left. apply trust_scale_pos.
    + now apply inv_1x1_right.
Qed.

Lemma corrections_never_increase_variance_default :
  covariances_ok (init 0.01 0.1 0.01 0.05) /\
  P (after (update_accel (init 0.01 0.1 0.01 0.05) 0 0 1)) 0%nat 0%nat
  <= P (init 0.01 0.1 0.01 0.05) 0%nat 0%nat.
Proof.
  assert (Hok : covariances_ok (init 0.01 0.1 0.01 0.05))
    by (apply init_covariances_ok; lra).
  split; [exact Hok|].
  apply (corrections_never_increase_variance _ 0 0 1 0 0 Hok). lia.
Defined.

Lemma math_sqrt_defined (x : R) :
  (0 <= x -> math_sqrt x = Some (sqrt x)) /\ (x < 0 -> math_sqrt x = None).
Proof.
  unfold math_sqrt. destruct (Rlt_dec x 0); split; intros; try reflexivity; lra.
Qed.

(** [get_state_covariance] raises [ValueError] exactly when one of the three
    attitude variances [P[0,0]], [P[1,1]], [P[2,2]] is negative; on a
    positive semi-definite [P] it returns three non-negative standard
    deviations. *)
Theorem get_state_covariance_defined (s : t) :
  (get_state_covariance s = None <->
   P s 0%nat 0%nat < 0 \/ P s 1%nat 1%nat < 0 \/ P s 2%nat 2%nat < 0) /\
  (psd 6 (P s) ->
   exists a b c, get_state_covariance s = Some (a, b, c) /\
                 0 <= a /\ 0 <= b /\ 0 <= c /\
                 a = degrees (sqrt (P s 0%nat 0%nat))).
Proof.
  assert (Hdeg : forall x, 0 <= x -> 0 <= degrees (sqrt x)).
  { intros x Hx. unfold degrees. pose proof PI_RGT_0. pose proof (sqrt_pos x).
    apply Rmult_le_pos; [nra | left; now apply Rinv_0_lt_compat]. }
  split.
  - unfold get_state_covariance, math_sqrt.
    destruct (Rlt_dec (P s 0%nat 0%nat) 0); destruct (Rlt_dec (P s 1%nat 1%nat) 0);
      destruct (Rlt_dec (P s 2%nat 2%nat) 0);
      split; intros Hx; try reflexivity; try discriminate; tauto.
  - intros Hp.
    pose proof (psd_diagonal 6 (P s) 0 Hp ltac:(lia)) as H0.
    pose proof (psd_diagonal 6 (P s) 1 Hp ltac:(lia)) as H1.
    pose proof (psd_diagonal 6 (P s) 2 Hp ltac:(lia)) as H2.
    unfold get_state_covariance.
    rewrite (proj1 (math_sqrt_defined _) H0), (proj1 (math_sqrt_defined _) H1),
      (proj1 (math_sqrt_defined _) H2).
    do 3 eexists. split; [reflexivity|]. repeat split; try now apply Hdeg.
Qed.

Lemma get_state_covariance_defined_default :
  psd 6 (P (init 0.01 0.1 0.01 0.05)) /\
  exists a b c, get_state_covariance (init 0.01 0.1 0.01 0.05) = Some (a, b, c).
Proof.
  assert (Hp : psd 6 (P (init 0.01 0.1 0.01 0.05)))
    by (apply mscale_psd; [apply eye_psd | lra]).
  split; [exact Hp|].
  destruct (proj2 (get_state_covariance_defined _) Hp) as (a & b & c & H & _).
  now exists a, b, c.
Defined.

End VarianceExtras.

(** ** A level filter at rest *)

Section LevelAtRest.

Import ExtendedKalmanFilter.

Lemma normalize_angle_0 : _normalize_angle 0 = 0.
Proof. apply normalize_angle_id. pose proof PI_RGT_0. lra. Qed.

Lemma mv_zero (k : nat) (A : matrix) (y : vector) (i : nat) :
  (forall l, (l < k)%nat -> y l = 0) -> mv k A y i = 0.
Proof.
  intros Hy. unfold mv.
  rewrite (sum_n_ext k _ (fun _ => 0)) by (intros l Hl; rewrite Hy by assumption; ring).
  apply sum_n_zero.
Qed.

Lemma predict_level (s : t) (dt : R) (i : nat) :
  (forall k, (k < 6)%nat -> state s k = 0) -> (i < 6)%nat ->
  state (predict s 0 0 0 dt) i = 0.
Proof.
  intros Hs Hi. unfold predict. cbv zeta. cbn [state with_P with_state].
  assert (Hr : radians 0 = 0) by (unfold radians; lra).
  rewrite Hr, !Hs by lia. unfold vset.
  do 6 (destruct i as [|i];
        [cbn [Nat.eqb]; rewrite ?Hs by lia;
         try (match goal with
              | |- _normalize_angle ?e = 0 =>
                  replace e with 0 by lra; apply normalize_angle_0
              end); try reflexivity|]).
  lia.
Qed.

Lemma atan2_0_pos (x : R) : 0 < x -> atan2 0 x = 0.
Proof.
  intros Hx. unfold atan2. destruct (Rlt_dec 0 x) as [_|H]; [|contradiction].
  replace (0 / x) with 0 by (unfold Rdiv; ring). apply atan_0.
Qed.

Lemma update_accel_level (s : t) (az : R) (i : nat) :
  (forall k, (k < 6)%nat -> state s k = 0) -> 0 < az -> (i < 6)%nat ->
  state (after (update_accel s 0 0 az)) i = 0.
Proof.
  intros Hs Haz Hi. unfold update_accel.
  destruct (Rlt_dec _ 0.1) as [_|_]; [now apply Hs|]. cbv zeta.
  replace (sqrt (0 ^ 2 + 0 ^ 2 + az ^ 2)) with az
    by (symmetry; apply sqrt_sum_sq_z; lra).
  replace (0 / az) with 0 by (unfold Rdiv; ring).
  replace (az / az) with 1 by (field; lra).
  replace (- 0) with 0 by ring.
  replace (sqrt (0 ^ 2 + 1 ^ 2)) with 1
    by (symmetry; apply sqrt_eq; lra).
  rewrite (atan2_0_pos 1) by lra.
  match goal with
  | |- context [inv_3x3 ?S] => destruct (inv_3x3 S) as [S_inv|]
  end; cbn [after state with_P with_state with_accel_trust_factor];
    [|now apply Hs].
  assert (Hy : forall y0 : vector, (forall l, (l < 3)%nat -> y0 l = 0) ->
               forall K0 k, (k < 6)%nat -> vadd (state s) (mv 3 K0 y0) k = 0).
  { intros y0 Hy0 K0 k Hk. unfold vadd. rewrite Hs, mv_zero by assumption. ring. }
  match goal with
  | |- context [mv 3 ?K0 ?y0] =>
      assert (Hy0 : forall l, (l < 3)%nat -> y0 l = 0)
  end.
  { intros l Hl. unfold vset, vec3. rewrite !Hs by lia.
    do 3 (destruct l as [|l];
          [cbn [Nat.eqb];
           try (match goal with
                | |- _normalize_angle ?e = 0 =>
                    replace e with 0 by lra; apply normalize_angle_0
                end); try lra|]).
    lia. }
  unfold vset.
  do 6 (destruct i as [|i];
        [cbn [Nat.eqb]; rewrite ?Hy by (assumption || lia);
         try apply normalize_angle_0; try reflexivity|]).
  lia.
Qed.

Lemma update_magnetometer_level (s : t) (i : nat) :
  (forall k, (k < 6)%nat -> state s k = 0) -> (i < 6)%nat ->
  state (after (update_magnetometer s 0)) i = 0.
Proof.
  intros Hs Hi. unfold update_magnetometer. cbv zeta.
  assert (Hr : radians 0 = 0) by (unfold radians; lra).
  rewrite Hr, normalize_angle_0.
  match goal with
  | |- context [inv_1x1 ?S] => destruct (inv_1x1 S) as [S_inv|]
  end; cbn [after state with_P with_state]; [|now apply Hs].
  assert (Hy : forall y0 : vector, (forall l, (l < 1)%nat -> y0 l = 0) ->
               forall K0 k, (k < 6)%nat -> vadd (state s) (mv 1 K0 y0) k = 0).
  { intros y0 Hy0 K0 k Hk. unfold vadd. rewrite Hs, mv_zero by assumption. ring. }
  match goal with
  | |- context [mv 1 ?K0 ?y0] =>
      assert (Hy0 : forall l, (l < 1)%nat -> y0 l = 0)
  end.
  { intros l Hl. replace l with 0%nat by lia. unfold vset, vec1.
    cbn [Nat.eqb]. rewrite Hs by lia.
    replace (0 - 0) with 0 by ring. apply normalize_angle_0. }
  unfold vset.
  do 6 (destruct i as [|i];
        [cbn [Nat.eqb]; rewrite ?Hy by (assumption || lia);
         try apply normalize_angle_0; try reflexivity|]).
  lia.
Qed.

(** A filter whose state is zero (level, heading zero, no bias) stays exactly
    there under any sequence of calls that report rest: [predict] with zero
    rates, [update_accel] with gravity along [+z] (any positive magnitude),
    [update_magnetometer] with heading zero, the setters and [reset];
    whatever the covariances and the time steps, and whether or not a
    correction raises.  [get_euler_angles] then returns [(0, 0, 0)]. *)
Theorem level_filter_at_rest_stays_level (s : t) (calls : list call) :
  (forall k, (k < 6)%nat -> state s k = 0) ->
  Forall (fun c => match c with
                   | Predict gx gy gz _ => gx = 0 /\ gy = 0 /\ gz = 0
                   | UpdateAccel ax ay az => ax = 0 /\ ay = 0 /\ 0 < az
                   | UpdateMagnetometer angle => angle = 0
                   | _ => True
                   end) calls ->
  (forall k, (k < 6)%nat -> state (apply_calls s calls) k = 0) /\
  get_euler_angles (apply_calls s calls) = (0, 0, 0).
Proof.
  intros Hs Hcalls.
  assert (H : forall k, (k < 6)%nat -> state (apply_calls s calls) k = 0).
  { unfold apply_calls. revert s Hs.
    induction Hcalls as [|c calls Hc _ IH]; intros s Hs; [exact Hs|].
    cbn [fold_left]. apply IH. intros k Hk.
    destruct c; cbn [apply_call].
    - destruct Hc as (-> & -> & ->). now apply predict_level.
    - destruct Hc as (-> & -> & Haz). now apply update_accel_level.
    - subst. now apply update_magnetometer_level.
    - now apply Hs.
    - now apply Hs.
    - reflexivity. }
  split; [exact H|].
  unfold get_euler_angles. rewrite !H by lia.
  assert (Hd : degrees 0 = 0) by (unfold degrees; lra).
  now rewrite Hd.
Qed.

Lemma level_filter_at_rest_stays_level_twenty_rounds :
  (forall k, (k < 6)%nat -> state (init 0.01 0.1 0.01 0.05) k = 0) /\
  get_euler_angles
    (apply_calls (init 0.01 0.1 0.01 0.05)
       (concat (repeat [Predict 0 0 0 0.1; UpdateAccel 0 0 1] 20)))
  = (0, 0, 0).
Proof.
  assert (H0 : forall k, (k < 6)%nat -> state (init 0.01 0.1 0.01 0.05) k = 0)
    by (intros k _; reflexivity).
  split; [exact H0|].
  apply (level_filter_at_rest_stays_level _ _ H0).
  cbn [repeat concat app].
  repeat (apply Forall_cons; [first [repeat split; lra | exact I]|]).
  apply Forall_nil.
Defined.

End LevelAtRest.

(** ** The adaptive estimator in use *)

Section AdaptiveExtras.

Import AdaptiveEKFAttitudeEstimator.

Lemma update_accel_keeps_R (k : ExtendedKalmanFilter.t) (ax ay az : R) :
  ExtendedKalmanFilter.R_accel (after (ExtendedKalmanFilter.update_accel k ax ay az))
  = ExtendedKalmanFilter.R_accel k /\
  ExtendedKalmanFilter.R_mag (after (ExtendedKalmanFilter.update_accel k ax ay az))
  = ExtendedKalmanFilter.R_mag k.
Proof.
  unfold ExtendedKalmanFilter.update_accel.
  destruct (Rlt_dec _ 0.1); [now split|]. cbv zeta.
  match goal with |- context [inv_3x3 ?S] => destruct (inv_3x3 S) end;
    split; reflexivity.
Qed.

Lemma update_magnetometer_keeps_R (k : ExtendedKalmanFilter.t) (angle : R) :
  ExtendedKalmanFilter.R_accel (after (ExtendedKalmanFilter.update_magnetometer k angle))
  = ExtendedKalmanFilter.R_accel k /\
  ExtendedKalmanFilter.R_mag (after (ExtendedKalmanFilter.update_magnetometer k angle))
  = ExtendedKalmanFilter.R_mag k.
Proof.
  unfold ExtendedKalmanFilter.update_magnetometer. cbv zeta.
  match goal with |- context [inv_1x1 ?S] => destruct (inv_1x1 S) end;
    split; reflexivity.
Qed.

Lemma adapt_level_cases (e : t) (ax ay az : R) :
  ekf (_adapt_process_noise e ax ay az) = ekf e \/
  exists level, 0 <= level /\
    ekf (_adapt_process_noise e ax ay az)
    = ExtendedKalmanFilter.set_process_noise (ekf e) level.
Proof.
  unfold _adapt_process_noise. cbv zeta.
  match goal with
  | |- context [Nat.leb 3 (length ?h)] => destruct (Nat.leb 3 (length h))
  end; [right|left; reflexivity].
  cbn [ekf].
  match goal with
  | |- context [ExtendedKalmanFilter.set_process_noise _ ?l] =>
      exists l; split; [|reflexivity]
  end.
  destruct (Rgt_dec _ 0.3); [lra|]. destruct (Rgt_dec _ 0.1); lra.
Qed.

Lemma filter_ok_after_adapt (e : t) (ax ay az : R) :
  estimator_ok e -> estimator_ok (_adapt_process_noise e ax ay az).
Proof.
  intros (Hok & Hb & HR & HM). unfold estimator_ok.
  destruct (adapt_level_cases e ax ay az) as [E|(level & Hl & E)]; rewrite E.
  - exact (conj Hok (conj Hb (conj HR HM))).
  - destruct (set_process_noise_covariances_ok (ekf e) level Hl Hb Hok) as [Hb' Hok'].
    exact (conj Hok' (conj Hb' (conj HR HM))).
Qed.

Lemma update_returns_on_ok (e : t) (ax ay az gx gy gz : R)
      (mag_angle : option R) (mag_valid : bool) (dt : R) :
  estimator_ok e ->
  exists e' angles,
    update e ax ay az gx gy gz mag_angle mag_valid dt = Done (e', angles) /\
    estimator_ok e'.
Proof.
  intros (Hok & Hb & (r & Hr & HR) & HM). unfold update.
  set (k0 := ExtendedKalmanFilter.predict (ekf e) gx gy gz dt).
  assert (Hok0 : ExtendedKalmanFilter.covariances_ok k0)
    by now apply predict_covariances_ok.
  destruct (update_accel_returns k0 ax ay az r Hok0 Hr HR) as (k1 & E1).
  pose proof (update_accel_covariances_ok k0 ax ay az Hok0) as Hok1.
  pose proof (update_accel_keeps_Q k0 ax ay az) as HQ1.
  destruct (update_accel_keeps_R k0 ax ay az) as [HRa1 HRm1].
  rewrite E1 in *. cbn [after] in *.
  change (ExtendedKalmanFilter.Q k0) with (ExtendedKalmanFilter.Q (ekf e)) in HQ1.
  change (ExtendedKalmanFilter.R_accel k0)
    with (ExtendedKalmanFilter.R_accel (ekf e)) in HRa1.
  change (ExtendedKalmanFilter.R_mag k0)
    with (ExtendedKalmanFilter.R_mag (ekf e)) in HRm1.
  assert (Hmag : exists k2,
            match mag_valid, mag_angle with
            | true, Some angle => ExtendedKalmanFilter.update_magnetometer k1 angle
            | _, _ => Done k1
            end = Done k2 /\
            ExtendedKalmanFilter.covariances_ok k2 /\
            ExtendedKalmanFilter.Q k2 = ExtendedKalmanFilter.Q (ekf e) /\
            ExtendedKalmanFilter.R_accel k2 = ExtendedKalmanFilter.R_accel (ekf e) /\
            ExtendedKalmanFilter.R_mag k2 = ExtendedKalmanFilter.R_mag (ekf e)).
  { destruct mag_valid; [destruct mag_angle as [angle|]|];
      try (exists k1; exact (conj eq_refl (conj Hok1 (conj HQ1 (conj HRa1 HRm1))))).
    destruct (update_magnetometer_returns k1 angle Hok1) as (k2 & E2);
      [rewrite HRm1; exact HM|].
    pose proof (update_magnetometer_covariances_ok k1 angle Hok1) as Hok2.
    pose proof (update_magnetometer_keeps_Q k1 angle) as HQ2.
    destruct (update_magnetometer_keeps_R k1 angle) as [HRa2 HRm2].
    rewrite E2 in *. cbn [after] in *.
    exists k2. split; [reflexivity|]. split; [exact Hok2|].
    split; [congruence|]. split; congruence. }
  destruct Hmag as (k2 & E2 & Hok2 & HQ2 & HRa2 & HRm2). rewrite E2.
  do 2 eexists. split; [reflexivity|].
  assert (Hwith : estimator_ok (with_ekf e k2)).
  { unfold estimator_ok. cbn [ekf with_ekf].
    split; [exact Hok2|]. split; [|split].
    - unfold ExtendedKalmanFilter.Q_blocks_only. now rewrite HQ2.
    - exists r. split; [exact Hr|]. now rewrite HRa2.
    - now rewrite HRm2. }
  apply (filter_ok_after_adapt _ ax ay az) in Hwith.
  exact Hwith.
Qed.

Lemma init_estimator_ok : estimator_ok init.
Proof.
  unfold estimator_ok, init. cbn [ekf].
  split; [apply init_covariances_ok; lra|].
  split; [apply init_Q_blocks_only|]. split.
  - exists (0.1 ^ 2). split; [lra|]. intros i j _ _. reflexivity.
  - cbn. unfold mscale, eye. cbn. lra.
Qed.

Lemma apply_call_returns_on_ok (e : t) (c : call) :
  estimator_ok e -> exists e', apply_call e c = Done e' /\ estimator_ok e'.
Proof.
  intros Hok. destruct c as [ax ay az gx gy gz ma mv0 dt|f|]; cbn [apply_call].
  - destruct (update_returns_on_ok e ax ay az gx gy gz ma mv0 dt Hok)
      as (e' & angles & E & Hok').
    rewrite E. now exists e'.
  - eexists. split; [reflexivity|]. exact Hok.
  - eexists. split; [reflexivity|].
    destruct Hok as (Hc & Hb & HR & HM). unfold estimator_ok, reset. cbn [ekf].
    split; [now apply reset_covariances_ok|]. exact (conj Hb (conj HR HM)).
Qed.

(** An [AdaptiveEKFAttitudeEstimator], from its construction on and through
    any sequence of [update], [set_mag_trust] and [reset] calls with any
    inputs: no call raises [LinAlgError], the covariances [P] and [Q] stay
    symmetric positive semi-definite, and [get_uncertainty] returns without
    a [ValueError]. *)
Theorem adaptive_estimator_never_raises (calls : list call) :
  exists e',
    run init calls = Done e' /\
    ExtendedKalmanFilter.covariances_ok (ekf e') /\
    exists a b c, get_uncertainty e' = Some (a, b, c).
Proof.
  assert (H : forall e, estimator_ok e ->
                exists e', run e calls = Done e' /\ estimator_ok e').
  { induction calls as [|c calls IH]; intros e Hok; [now exists e|].
    cbn [run]. destruct (apply_call_returns_on_ok e c Hok) as (e1 & E & Hok1).
    rewrite E. now apply IH. }
  destruct (H init init_estimator_ok) as (e' & Hr & Hok & _).
  exists e'. split; [exact Hr|]. split; [exact Hok|].
  destruct Hok as (_ & Hp & _).
  unfold get_uncertainty, ExtendedKalmanFilter.get_state_covariance.
  pose proof (psd_diagonal 6 _ 0 Hp ltac:(lia)) as H0.
  pose proof (psd_diagonal 6 _ 1 Hp ltac:(lia)) as H1.
  pose proof (psd_diagonal 6 _ 2 Hp ltac:(lia)) as H2.
  rewrite (proj1 (math_sqrt_defined _) H0), (proj1 (math_sqrt_defined _) H1),
    (proj1 (math_sqrt_defined _) H2).
  now do 3 eexists.
Qed.

End AdaptiveExtras.

Section AdaptiveNoiseExtras.

Import AdaptiveEKFAttitudeEstimator.

Lemma list_sum_constant (c : R) (l : list R) :
  (forall x, In x l -> x = c) -> list_sum l = INR (length l) * c.
Proof.
  induction l as [|a l IH]; intros H; [cbn; ring|].
  cbn [list_sum fold_right length]. rewrite S_INR.
  fold (list_sum l). rewrite IH by (intros x Hx; apply H; now right).
  rewrite (H a) by now left. ring.
Qed.

(** [np.std] of a window whose entries are all equal is zero. *)
Lemma np_std_constant (c : R) (l : list R) :
  l <> [] -> (forall x, In x l -> x = c) -> np_std l = 0.
Proof.
  intros Hne H.
  assert (Hlen : INR (length l) <> 0).
  { destruct l; [contradiction|]. apply not_0_INR. cbn. lia. }
  assert (Hmean : np_mean l = c).
  { unfold np_mean. rewrite (list_sum_constant c l H). field. exact Hlen. }
  unfold np_std. rewrite Hmean.
  assert (Hz : list_sum (map (fun x => Rabs (x - c) ^ 2) l) = INR (length (map (fun x => Rabs (x - c) ^ 2) l)) * 0).
  { apply list_sum_constant. intros y Hy. apply in_map_iff in Hy.
    destruct Hy as (x & <- & Hx). rewrite (H x Hx).
    replace (c - c) with 0 by ring. rewrite Rabs_R0. ring. }
  unfold np_mean. rewrite Hz, length_map.
  replace (INR (length l) * 0 / INR (length l)) with 0 by (field; exact Hlen).
  apply sqrt_0.
Qed.

(** When the window that [_adapt_process_noise] leaves holds at least three
    magnitudes and they are all equal (the device is not accelerating), the
    process noise is set to the quiet level [0.01]. *)
Theorem steady_magnitude_sets_quiet_noise (e : t) (ax ay az : R) :
  (3 <= length (accel_history (_adapt_process_noise e ax ay az)))%nat ->
  (forall x, In x (accel_history (_adapt_process_noise e ax ay az)) ->
             x = sqrt (ax ^ 2 + ay ^ 2 + az ^ 2)) ->
  ekf (_adapt_process_noise e ax ay az)
  = ExtendedKalmanFilter.set_process_noise (ekf e) 0.01.
Proof.
  unfold _adapt_process_noise. cbv zeta.
  set (h := if Nat.ltb (max_history_len e) (length (accel_history e ++ [sqrt (ax ^ 2 + ay ^ 2 + az ^ 2)]))
            then tl (accel_history e ++ [sqrt (ax ^ 2 + ay ^ 2 + az ^ 2)])
            else accel_history e ++ [sqrt (ax ^ 2 + ay ^ 2 + az ^ 2)]).
  destruct (Nat.leb 3 (length h)) eqn:E; cbn [accel_history ekf]; intros Hlen Hall.
  - rewrite (np_std_constant (sqrt (ax ^ 2 + ay ^ 2 + az ^ 2)) h);
      [|destruct h; [cbn in Hlen; lia | discriminate] | exact Hall].
    destruct (Rgt_dec 0 0.3); [lra|]. destruct (Rgt_dec 0 0.1); [lra|]. reflexivity.
  - apply Nat.leb_gt in E. lia.
Qed.

Lemma steady_magnitude_sets_quiet_noise_third_sample :
  ekf (_adapt_process_noise
         (mk (ExtendedKalmanFilter.init 0.01 0.1 0.01 0.05) [1; 1] 10 2) 0 0 1)
  = ExtendedKalmanFilter.set_process_noise
      (ExtendedKalmanFilter.init 0.01 0.1 0.01 0.05) 0.01.
Proof.
  assert (Hs : sqrt (0 ^ 2 + 0 ^ 2 + 1 ^ 2) = 1) by (apply sqrt_sum_sq_z; lra).
  apply (steady_magnitude_sets_quiet_noise
           (mk (ExtendedKalmanFilter.init 0.01 0.1 0.01 0.05) [1; 1] 10 2) 0 0 1).
  - unfold _adapt_process_noise. cbn. lia.
  - unfold _adapt_process_noise. cbn [accel_history max_history_len app length
                                       Nat.ltb Nat.leb].
    cbn [accel_history]. intros x [Hx|[Hx|[Hx|[]]]]; rewrite <- Hx;
      first [reflexivity | symmetry; exact Hs].
Defined.

Lemma adapt_few_samples (e : t) (ax ay az : R) :
  (length (accel_history e) < 2)%nat ->
  ekf (_adapt_process_noise e ax ay az) = ekf e /\
  (length (accel_history (_adapt_process_noise e ax ay az))
   <= S (length (accel_history e)))%nat.
Proof.
  intros Hlen. unfold _adapt_process_noise. cbv zeta.
  set (m := sqrt (ax ^ 2 + ay ^ 2 + az ^ 2)).
  set (h := if Nat.ltb (max_history_len e) (length (accel_history e ++ [m]))
            then tl (accel_history e ++ [m]) else accel_history e ++ [m]).
  assert (Hh : (length h <= S (length (accel_history e)))%nat).
  { unfold h. destruct (Nat.ltb _ _).
    - destruct (accel_history e ++ [m]) eqn:El.
      + cbn. lia.
      + assert (Hl : length (accel_history e ++ [m]) = S (length l)) by now rewrite El.
        rewrite length_app in Hl. cbn in Hl. cbn. lia.
    - rewrite length_app. cbn. lia. }
  destruct (Nat.leb 3 (length h)) eqn:E; cbn [ekf accel_history].
  - apply Nat.leb_le in E. lia.
  - now split.
Qed.

(** [reset] empties the window and resets the filter state but keeps the
    process noise that was last adapted: [Q] is the same after [reset], and
    stays the same through the first two [update] calls that follow, since
    fewer than three magnitudes are buffered. *)
Theorem reset_keeps_adapted_noise
  (e : t) (ax ay az gx gy gz dt bx by_ bz hx hy hz dt' : R)
  (m1 m2 : option R) (v1 v2 : bool) :
  accel_history (reset e) = [] /\
  ExtendedKalmanFilter.Q (ekf (reset e)) = ExtendedKalmanFilter.Q (ekf e) /\
  match update (reset e) ax ay az gx gy gz m1 v1 dt with
  | LinAlgError _ => True
  | Done (e1, _) =>
      ExtendedKalmanFilter.Q (ekf e1) = ExtendedKalmanFilter.Q (ekf e) /\
      match update e1 bx by_ bz hx hy hz m2 v2 dt' with
      | LinAlgError _ => True
      | Done (e2, _) =>
          ExtendedKalmanFilter.Q (ekf e2) = ExtendedKalmanFilter.Q (ekf e)
      end
  end.
Proof.
  split; [reflexivity|]. split; [reflexivity|].
  assert (Hstep : forall e0 a1 a2 a3 g1 g2 g3 mm vv d,
            (length (accel_history e0) < 2)%nat ->
            match update e0 a1 a2 a3 g1 g2 g3 mm vv d with
            | LinAlgError _ => True
            | Done (e1, _) =>
                ExtendedKalmanFilter.Q (ekf e1) = ExtendedKalmanFilter.Q (ekf e0) /\
                (length (accel_history e1) <= S (length (accel_history e0)))%nat
            end).
  { intros e0 a1 a2 a3 g1 g2 g3 mm vv d Hlen. unfold update.
    pose proof (update_accel_keeps_Q
                  (ExtendedKalmanFilter.predict (ekf e0) g1 g2 g3 d) a1 a2 a3) as Ha.
    rewrite predict_keeps_Q in Ha.
    destruct (ExtendedKalmanFilter.update_accel _ a1 a2 a3) as [k1|k1];
      cbn [after] in Ha; [|exact I].
    assert (Hm : ExtendedKalmanFilter.Q
                   (after (match vv, mm with
                           | true, Some angle =>
                               ExtendedKalmanFilter.update_magnetometer k1 angle
                           | _, _ => Done k1
                           end)) = ExtendedKalmanFilter.Q (ekf e0)).
    { destruct vv; [destruct mm as [angle|]|]; cbn [after];
        try exact Ha. now rewrite update_magnetometer_keeps_Q. }
    destruct (match vv, mm with
              | true, Some angle =>
                  ExtendedKalmanFilter.update_magnetometer k1 angle
              | _, _ => Done k1
              end) as [k2|k2]; cbn [after] in Hm; [|exact I].
    destruct (adapt_few_samples (with_ekf e0 k2) a1 a2 a3 Hlen) as [He Hl].
    cbn [ekf accel_history]. rewrite He. cbn [ekf with_ekf].
    split; [exact Hm | exact Hl]. }
  pose proof (Hstep (reset e) ax ay az gx gy gz m1 v1 dt) as H1.
  destruct (update (reset e) ax ay az gx gy gz m1 v1 dt) as [[e1 ang1]|]; [|exact I].
  destruct H1 as [HQ1 Hl1]; [cbn; lia|].
  split; [exact HQ1|].
  pose proof (Hstep e1 bx by_ bz hx hy hz m2 v2 dt') as H2.
  destruct (update e1 bx by_ bz hx hy hz m2 v2 dt') as [[e2 ang2]|]; [|exact I].
  destruct H2 as [HQ2 _]; [cbn in Hl1; lia|].
  now rewrite HQ2.
Qed.

End AdaptiveNoiseExtras.

(** ** The heading correction in closed form *)

Section HeadingCorrection.

Import ExtendedKalmanFilter.




(** [update_magnetometer] is a scalar Kalman update of the yaw: with the
    innovation variance [S = P[2,2] + R_mag / max(0.1, trust)] and the
    residual [y] (the normalized difference between the normalized heading
    and the yaw), a non-zero [S] gives the new yaw
    [normalize (yaw + P[2,2] / S * y)], moves each bias by [P[i,2] / S * y]
    and leaves the yaw variance [P[2,2] - P[2,2]^2 / S]; a zero [S] raises
    and leaves the filter untouched. *)
Theorem update_magnetometer_scalar_form (s : t) (angle : R) :
  let S := P s 2%nat 2%nat
           + R_mag s 0%nat 0%nat * (1.0 / Rmax 0.1 (mag_trust_factor s)) in
  let y := _normalize_angle (_normalize_angle (radians angle) - state s 2%nat) in
  (S <> 0 ->
   exists s', update_magnetometer s angle = Done s' /\
     state s' 2%nat = _normalize_angle (state s 2%nat + P s 2%nat 2%nat / S * y) /\
     (forall i, (3 <= i < 6)%nat -> state s' i = state s i + P s i 2%nat / S * y) /\
     P s' 2%nat 2%nat = P s 2%nat 2%nat - P s 2%nat 2%nat * P s 2%nat 2%nat / S) /\
  (S = 0 -> update_magnetometer s angle = LinAlgError s).
Proof.
  intros S y. unfold update_magnetometer. cbv zeta. fold y.
  unfold inv_1x1. rewrite mag_innovation_entry.
  change (P s 2%nat 2%nat + mag_R s 0%nat 0%nat) with S.
  destruct (Req_dec_T S 0) as [E|E]; split; intros HS; try contradiction;
    try reflexivity.
  eexists. split; [reflexivity|].
  cbn [state P with_P with_state].
  assert (HK : forall i, (i < 6)%nat ->
             mv 1 (mmul 1 (mmul 6 (P s) (mT (mset zeros 0 2 1.0)))
                     (fun _ _ : nat => 1 / S)) (vset (fun i0 => vec1 (_normalize_angle (radians angle)) i0 - vec1 (state s 2%nat) i0) 0 y) i
             = P s i 2%nat / S * y).
  { intros i Hi. unfold mv, mmul, mT, mset, zeros, vset, vec1. cbn.
    replace 1.0 with 1 by lra. field. exact HS. }
  split; [|split].
  - unfold vset at 1. cbn [Nat.eqb]. unfold vset at 1 2. cbn [Nat.eqb].
    unfold vadd. now rewrite HK by lia.
  - intros i Hi. unfold vset at 1 2 3.
    destruct i as [|[|[|i]]]; try lia. cbn [Nat.eqb].
    unfold vadd. now rewrite HK by lia.
  - unfold mmul at 1, msub, eye. cbn [sum_n].
    unfold mmul, mT, mset, zeros. cbn.
    replace 1.0 with 1 by lra. field. exact HS.
Qed.

Lemma update_magnetometer_scalar_form_default :
  exists s',
    update_magnetometer (init 0.01 0.1 0.01 0.05) 90 = Done s' /\
    P s' 2%nat 2%nat < P (init 0.01 0.1 0.01 0.05) 2%nat 2%nat.
Proof.
  assert (HS : P (init 0.01 0.1 0.01 0.05) 2%nat 2%nat
               + R_mag (init 0.01 0.1 0.01 0.05) 0%nat 0%nat
                 * (1.0 / Rmax 0.1 (mag_trust_factor (init 0.01 0.1 0.01 0.05)))
               = 1.0025).
  { cbn. unfold mscale, eye. cbn. unfold Rmax.
    destruct (Rle_dec 0.1 1.0); lra. }
  destruct (proj1 (update_magnetometer_scalar_form (init 0.01 0.1 0.01 0.05) 90))
    as (s' & Hu & _ & _ & HP).
  - rewrite HS. lra.
  - exists s'. split; [exact Hu|]. rewrite HP, HS.
    cbn. unfold mscale, eye. cbn. lra.
Defined.

End HeadingCorrection.

(** ** The Madgwick filter about the vertical axis *)

Section MadgwickYawOnly.

Import MadgwickQuaternion.

(** On a yaw-only unit quaternion [(c, 0, 0, d)] with the measured
    acceleration along the z axis (of either sign), the gradient of [update]
    is zero, so the accelerometer corrects nothing: the call integrates the
    z rate alone, stores the yaw-only quaternion
    [(c - d h, 0, 0, d + c h) / sqrt (1 + h^2)] for [h = radians gz * dt / 2],
    counts the update, and returns roll and pitch exactly [0]. *)
Theorem level_yaw_rotation_stays_level (s : t) (c d az gz dt : R) :
  q s = (c, 0, 0, d) -> c * c + d * d = 1 -> az <> 0 ->
  let h := radians gz * dt / 2 in
  let m := sqrt (1 + h * h) in
  exists s' yaw,
    update s 0 0 az 0 0 gz (Some dt) = Some (s', (0, 0, yaw)) /\
    q s' = ((c - d * h) / m, 0, 0, (d + c * h) / m) /\
    update_count s' = S (update_count s).
Proof.
  intros Hq Hu Haz h m.
  assert (Hm : 0 < m) by (apply sqrt_lt_R0; nra).
  assert (Hn : sqrt (0 * 0 + 0 * 0 + az * az) <> 0).
  { intros E. apply sqrt_eq_0 in E; nra. }
  unfold update. cbv zeta.
  set (n := sqrt (0 * 0 + 0 * 0 + az * az)) in *.
  destruct (Req_dec_T n 0) as [E|_]; [contradiction|].
  rewrite Hq.
  replace (gradient c 0 0 d (0 / n) (0 / n) (az / n)) with (0, 0, 0, 0)
    by (unfold gradient; cbv zeta; apply quaternion_eq; unfold Rdiv; lra).
  cbv iota beta.
  replace (0 * 0 + 0 * 0 + 0 * 0 + 0 * 0) with 0 by ring. rewrite sqrt_0.
  destruct (Rgt_dec 0 0) as [E|_]; [lra|].
  rewrite radians_0.
  match goal with
  | |- context [store_normalized _ _ ?a ?b ?cc ?dd (sqrt ?e)] =>
      replace e with ((1 + h * h) * (c * c + d * d)) by (unfold h; lra);
      replace a with (c - d * h) by (unfold h; lra);
      replace b with 0 by lra;
      replace cc with 0 by lra;
      replace dd with (d + c * h) by (unfold h; lra)
  end.
  rewrite Hu, Rmult_1_r. fold m.
  rewrite store_normalized_nonzero by lra.
  eexists. eexists. split; [|split].
  - unfold get_euler_angles. cbn [q]. cbv zeta.
    replace (2.0 * ((c - d * h) / m * (0 / m) + 0 / m * ((d + c * h) / m)))
      with 0 by (unfold Rdiv; lra).
    replace (1.0 - 2.0 * (0 / m * (0 / m) + 0 / m * (0 / m)))
      with 1 by (unfold Rdiv; lra).
    replace (2.0 * ((c - d * h) / m * (0 / m) - (d + c * h) / m * (0 / m)))
      with 0 by (unfold Rdiv; lra).
    rewrite atan2_0_pos by lra.
    destruct (Rge_dec (Rabs 0) 1) as [E|_]; [rewrite Rabs_R0 in E; lra|].
    rewrite asin_0.
    replace (degrees 0) with 0 by (unfold degrees; lra).
    reflexivity.
  - cbn [q]. apply quaternion_eq; unfold Rdiv; lra.
  - reflexivity.
Qed.

Lemma level_yaw_rotation_stays_level_quarter_turn :
  exists s' yaw,
    update (reset (mk 0.1 10.0 0.1 (1.0, 0.0, 0.0, 0.0) 7))
           0 0 9.8 0 0 90 (Some 0.1)
    = Some (s', (0, 0, yaw)) /\
    update_count s' = 1%nat.
Proof.
  assert (Hq : q (reset (mk 0.1 10.0 0.1 (1.0, 0.0, 0.0, 0.0) 7)) = (1, 0, 0, 0))
    by (cbn; apply quaternion_eq; lra).
  assert (Hu : 1 * 1 + 0 * 0 = 1) by lra.
  assert (Haz : 9.8 <> 0) by lra.
  destruct (level_yaw_rotation_stays_level _ 1 0 9.8 90 0.1 Hq Hu Haz)
    as (s' & yaw & H & _ & Hc).
  exists s', yaw. split; [exact H|exact Hc].
Defined.

End MadgwickYawOnly.

(** ** Angle normalization on [float64] *)

Section NormalizeAngleFloat64.

Import PrimFloat.

Lemma wrap_down_absorbed (a : float) :
  ltb Float64.math_pi a = true ->
  (a - 2 * Float64.math_pi)%float = a ->
  forall fuel, Float64.wrap_down fuel a = None.
Proof.
  intros Hgt Hfix fuel. induction fuel as [|n IH]; [reflexivity|].
  cbn [Float64.wrap_down]. rewrite Hgt, Hfix. exact IH.
Qed.

Lemma wrap_up_absorbed (a : float) :
  ltb a (- Float64.math_pi)%float = true ->
  (a + 2 * Float64.math_pi)%float = a ->
  forall fuel, Float64.wrap_up fuel a = None.
Proof.
  intros Hlt Hfix fuel. induction fuel as [|n IH]; [reflexivity|].
  cbn [Float64.wrap_up]. rewrite Hlt, Hfix. exact IH.
Qed.

(** On a [float64] angle above [math.pi] that the subtraction of
    [2 * math.pi] rounds back to itself, the first loop of [_normalize_angle]
    never exits; on one below [-math.pi] (so not above [math.pi]) that the
    addition rounds back to itself, the second loop never exits.  No number
    of loop tests is enough: the call does not return.  [1e17] and [-1e17]
    are such angles (neighbouring [float64] numbers are 16 apart there). *)
Theorem normalize_angle_float64_never_exits (a : float) :
  (ltb Float64.math_pi a = true /\ (a - 2 * Float64.math_pi)%float = a) \/
  (ltb Float64.math_pi a = false /\
   ltb a (- Float64.math_pi)%float = true /\
   (a + 2 * Float64.math_pi)%float = a) ->
  forall fuel, Float64.normalize_angle_fuel fuel a = None.
Proof.
  intros [[Hgt Hfix]|(Hngt & Hlt & Hfix)] fuel;
    unfold Float64.normalize_angle_fuel.
  - now rewrite wrap_down_absorbed.
  - destruct fuel as [|n]; [reflexivity|].
    cbn [Float64.wrap_down]. rewrite Hngt.
    now apply wrap_up_absorbed.
Qed.

(** The angles [1e17] and [-1e17] are absorbed ([1e17 - 2 * math.pi] is
    [1e17] again), while on [4.0] the loops return [4.0 - 2 * math.pi] after
    two tests. *)
Lemma normalize_angle_float64_never_exits_at_1e17 :
  (ltb Float64.math_pi 1e17 = true /\
   (1e17 - 2 * Float64.math_pi)%float = 1e17%float) /\
  Float64.normalize_angle_fuel 1000 1e17 = None /\
  Float64.normalize_angle_fuel 1000 (-1e17) = None /\
  Float64.normalize_angle_fuel 2 4
  = Some (4 - 2 * Float64.math_pi)%float.
Proof.
  assert (H : ltb Float64.math_pi 1e17 = true /\
              (1e17 - 2 * Float64.math_pi)%float = 1e17%float)
    by (split; reflexivity).
  split; [exact H|]. split; [|split].
  - exact (normalize_angle_float64_never_exits 1e17 (or_introl H) 1000).
  - apply (normalize_angle_float64_never_exits (-1e17)).
    right. split; [|split]; reflexivity.
  - reflexivity.
Defined.

End NormalizeAngleFloat64.
